(** * Parser: a shallow embedding of [parser.py] and its specification

    The program is a command-line text utility: word, character and line
    counts, the occurrence count of one word, whole-word replacement, and the
    top-N word frequencies.  Every operation is a pure function on the text
    that was read from the input file; the dispatcher [process_file] threads a
    result list through six guarded steps and may write one output file.

    Text model.  A Python [str] is a sequence of code points.  This
    development fixes the code points U+0000..U+00FF (Latin-1), represented by
    [ascii], and a text is a [list ascii].  On that range [str.lower] acts
    character by character and stays inside the range, and the classes used by
    [re] ([\w], [\b], IGNORECASE) are the ones written out below.

    Beyond that range three things change, and the statements about
    replacement are phrased so as not to lean on them.  [str.lower] can
    lengthen a text and depends on the context of a capital sigma; IGNORECASE
    pairs characters whose lower-casings differ (the long s with [s], the
    dotted and dotless [i]), so the case-blind comparison of the pattern is
    [Re.char_match] and [spells], never an equality of lower-cased texts; and
    IGNORECASE pairs a word character with a character outside [\w] (a
    Greek iota, U+0399, U+03B9 or U+1FBE, with the combining mark U+0345),
    which [only_word_matches] rules out where a statement speaks of whole
    runs of word characters. *)

From Stdlib Require Import Ascii String.
From Stdlib Require Import List Bool Arith NArith ZArith Lia.
From Stdlib Require Import Permutation Sorted.
From Stdlib Require Import DecimalString.
Import ListNotations.

Set Implicit Arguments.

(** ** Characters and strings *)

Definition str := list ascii.

(** A string literal as a text. *)
Definition text (s : string) : str := list_ascii_of_string s.

Definition str_eqb (a b : str) : bool :=
  if list_eq_dec ascii_dec a b then true else false.

Definition count_of (ws : list str) (w : str) : nat :=
  count_occ (list_eq_dec ascii_dec) ws w.

Definition ord (c : ascii) : N := N_of_ascii c.
Definition chr (n : N) : ascii := ascii_of_N n.

Definition in_range (lo hi : N) (c : ascii) : bool :=
  (lo <=? ord c)%N && (ord c <=? hi)%N.

(** The line feed, ["\n"]. *)
Definition LF : ascii := chr 10.

(** The exceptions the program can meet and does not catch: a replacement
    template that [re] rejects, a missing dictionary key, and what [open] and
    [read] raise besides an [OSError]: [UnicodeDecodeError] for a file that is
    not text in the expected encoding, and [ValueError] for a path that
    [open] refuses. *)
Inductive exn : Type :=
| BadTemplate
| KeyError (key : str)
| UnicodeDecodeError
| ValueError.

Module Str.

(** Characters with an upper-case/lower-case pair inside the range: [A-Z],
    U+00C0..U+00D6 and U+00D8..U+00DE. *)
Definition is_upper (c : ascii) : bool :=
  in_range 65 90 c || in_range 192 214 c || in_range 216 222 c.

(** Lower-case mapping of one code point. *)
Definition lower1 (c : ascii) : ascii :=
  if is_upper c then chr (ord c + 32) else c.

(** [str.lower()].  In this range it is a map over the characters: it keeps
    the length of the text and the place of every character. *)
Definition lower (s : str) : str := map lower1 s.

(** [str.isalnum()] of one code point: letters, decimal digits, and the
    Latin-1 characters with a numeric value (superscripts, fractions). *)
Definition isalnum (c : ascii) : bool :=
  in_range 48 57 c || in_range 65 90 c || in_range 97 122 c
  || N.eqb (ord c) 170 || N.eqb (ord c) 178 || N.eqb (ord c) 179
  || N.eqb (ord c) 181 || N.eqb (ord c) 185 || N.eqb (ord c) 186
  || in_range 188 190 c
  || in_range 192 214 c || in_range 216 246 c || in_range 248 255 c.

(** Line boundaries of [str.splitlines()]: LF, VT, FF, CR, FS, GS, RS and
    NEL (CR LF counts as one boundary, see [splitlines]). *)
Definition is_linebreak (c : ascii) : bool :=
  in_range 10 13 c || in_range 28 30 c || N.eqb (ord c) 133.

Definition is_cr (c : ascii) : bool := N.eqb (ord c) 13.
Definition is_lf (c : ascii) : bool := N.eqb (ord c) 10.

(** [str.splitlines()] without [keepends]: the scan keeps the current line
    in [cur]; a boundary closes it (also when it is empty), and the end of
    the text closes it only when it is not empty. *)
Fixpoint splitlines_from (cur : str) (s : str) : list str :=
  match s with
  | [] => match cur with [] => [] | _ :: _ => [cur] end
  | c :: s' =>
      if is_linebreak c then
        cur :: match s' with
               | d :: s'' =>
                   if is_cr c && is_lf d then splitlines_from [] s''
                   else splitlines_from [] s'
               | [] => splitlines_from [] s'
               end
      else splitlines_from (cur ++ [c]) s'
  end.

Definition splitlines (s : str) : list str := splitlines_from [] s.

(** [str(n)] for a natural number, as used by the f-strings. *)
Definition of_nat (n : nat) : str :=
  text (NilZero.string_of_uint (Nat.to_uint n)).

End Str.

(** ** The [re] module, as far as the program uses it *)

Module Re.

(** The class [\w] of a [str] pattern. *)
Definition is_word (c : ascii) : bool :=
  Str.isalnum c || N.eqb (ord c) 95.

(** [re.findall(r'\w+', s)]: the maximal runs of word characters, in text
    order.  [cur] is the run being read. *)
Definition flush (cur : str) : list str :=
  match cur with [] => [] | _ :: _ => [cur] end.

Fixpoint findall_words_from (cur : str) (s : str) : list str :=
  match s with
  | [] => flush cur
  | c :: s' =>
      if is_word c then findall_words_from (cur ++ [c]) s'
      else flush cur ++ findall_words_from [] s'
  end.

Definition findall_words (s : str) : list str := findall_words_from [] s.

(** *** Compiled patterns

    The program compiles one shape of pattern only: [\b], the escaped old
    word, [\b], with IGNORECASE.  [re.escape] makes every character of the
    word stand for itself, so the compiled pattern is a sequence of
    boundary assertions and literals. *)
Inductive node : Type :=
| Boundary
| Literal (c : ascii).

Definition pattern := list node.

Definition is_word_opt (p : option ascii) : bool :=
  match p with Some c => is_word c | None => false end.

(** [\b] between the character before the position and the one at it; the
    outside of the text counts as a non-word character. *)
Definition at_boundary (prev : option ascii) (s : str) : bool :=
  xorb (is_word_opt prev) (is_word_opt (hd_error s)).

(** IGNORECASE on one literal [p] against the character [c] of the text.  In
    this range the characters [re] pairs are those with the same lower-case
    form. *)
Definition char_match (p c : ascii) : bool :=
  Ascii.eqb (Str.lower1 c) (Str.lower1 p).

(** Match the pattern at the head of [s], the character before it being
    [prev]; the result is the matched text and what follows it. *)
Fixpoint match_here (pat : pattern) (prev : option ascii) (s : str)
  : option (str * str) :=
  match pat with
  | [] => Some ([], s)
  | Boundary :: pat' =>
      if at_boundary prev s then match_here pat' prev s else None
  | Literal p :: pat' =>
      match s with
      | c :: s' =>
          if char_match p c then
            match match_here pat' (Some c) s' with
            | Some (m, rest) => Some (c :: m, rest)
            | None => None
            end
          else None
      | [] => None
      end
  end.

Fixpoint last_opt (prev : option ascii) (m : str) : option ascii :=
  match m with
  | [] => prev
  | c :: m' => last_opt (Some c) m'
  end.

(** *** Replacement templates

    [re.subn] compiles a replacement string that holds a backslash into a
    template before it searches (Python 3.12 rules; a pattern of the shape
    above has no group but group 0).  Compilation can raise [re.error], or
    [IndexError] for an unknown group name. *)
Inductive piece : Type :=
| Lit (s : str)
| Group0.

Definition is_backslash (c : ascii) : bool := N.eqb (ord c) 92.
Definition is_digit (c : ascii) : bool := in_range 48 57 c.
Definition is_octdigit (c : ascii) : bool := in_range 48 55 c.
Definition is_ascii_letter (c : ascii) : bool :=
  in_range 65 90 c || in_range 97 122 c.
Definition digit_val (c : ascii) : N := (ord c - 48)%N.

(** The escapes of one letter: [\a \b \f \n \r \t \v] and [\\]. *)
Definition escape_char (c : ascii) : option ascii :=
  match ord c with
  | 97%N => Some (chr 7)
  | 98%N => Some (chr 8)
  | 102%N => Some (chr 12)
  | 110%N => Some (chr 10)
  | 114%N => Some (chr 13)
  | 116%N => Some (chr 9)
  | 118%N => Some (chr 11)
  | 92%N => Some (chr 92)
  | _ => None
  end.

(** The name of [\g<name>] up to the closing bracket, and the rest. *)
Fixpoint getuntil_gt (s : str) : option (str * str) :=
  match s with
  | [] => None
  | c :: s' =>
      if N.eqb (ord c) 62 then Some ([], s')
      else match getuntil_gt s' with
           | Some (name, rest) => Some (c :: name, rest)
           | None => None
           end
  end.

Definition is_zero_name (name : str) : bool :=
  match name with
  | [] => false
  | _ :: _ => forallb (fun c => N.eqb (ord c) 48) name
  end.

Definition cons_piece (p : piece) (r : exn + list piece) : exn + list piece :=
  match r with
  | inl e => inl e
  | inr ps => inr (p :: ps)
  end.

(** [parse_template]: every step consumes at least one character, so the
    length of the source bounds the number of steps. *)
Fixpoint parse_template_from (fuel : nat) (s : str) : exn + list piece :=
  match fuel with
  | 0 => inr []
  | S fuel' =>
      match s with
      | [] => inr []
      | c :: s1 =>
          if is_backslash c then
            match s1 with
            | [] => inl BadTemplate            (* bad escape (end of pattern) *)
            | e :: s2 =>
                if N.eqb (ord e) 103 then       (* \g<name> *)
                  match s2 with
                  | lt :: s3 =>
                      if N.eqb (ord lt) 60 then
                        match getuntil_gt s3 with
                        | Some (name, rest) =>
                            if is_zero_name name
                            then cons_piece Group0 (parse_template_from fuel' rest)
                            else inl BadTemplate (* no such group, or a bad name *)
                        | None => inl BadTemplate (* missing > *)
                        end
                      else inl BadTemplate       (* missing < *)
                  | [] => inl BadTemplate
                  end
                else if N.eqb (ord e) 48 then   (* \0, \0d, \0dd: octal *)
                  match s2 with
                  | d1 :: s3 =>
                      if is_octdigit d1 then
                        match s3 with
                        | d2 :: s4 =>
                            if is_octdigit d2 then
                              cons_piece
                                (Lit [chr (N.land (digit_val d1 * 8 + digit_val d2) 255)])
                                (parse_template_from fuel' s4)
                            else
                              cons_piece (Lit [chr (digit_val d1)])
                                         (parse_template_from fuel' s3)
                        | [] =>
                            cons_piece (Lit [chr (digit_val d1)])
                                       (parse_template_from fuel' s3)
                        end
                      else cons_piece (Lit [chr 0]) (parse_template_from fuel' s2)
                  | [] => cons_piece (Lit [chr 0]) (parse_template_from fuel' s2)
                  end
                else if is_digit e then         (* \1..\9: group or octal *)
                  match s2 with
                  | d1 :: d2 :: s4 =>
                      if is_digit d1 && is_octdigit e && is_octdigit d1
                         && is_octdigit d2 then
                        let v := (digit_val e * 64 + digit_val d1 * 8
                                  + digit_val d2)%N in
                        if (255 <? v)%N then inl BadTemplate
                        else cons_piece (Lit [chr v])
                                        (parse_template_from fuel' s4)
                      else inl BadTemplate       (* invalid group reference *)
                  | _ => inl BadTemplate         (* invalid group reference *)
                  end
                else
                  match escape_char e with
                  | Some x => cons_piece (Lit [x]) (parse_template_from fuel' s2)
                  | None =>
                      if is_ascii_letter e then inl BadTemplate (* bad escape *)
                      else cons_piece (Lit [c; e])
                                      (parse_template_from fuel' s2)
                  end
            end
          else cons_piece (Lit [c]) (parse_template_from fuel' s1)
      end
  end.

Definition parse_template (repl : str) : exn + list piece :=
  parse_template_from (length repl) repl.

(** The text a template stands for at a match [m]. *)
Fixpoint expand (tpl : list piece) (m : str) : str :=
  match tpl with
  | [] => []
  | Lit s :: tpl' => s ++ expand tpl' m
  | Group0 :: tpl' => m ++ expand tpl' m
  end.

(** *** The substitution loop of [re.subn]

    The search goes left to right from the end of the previous match.  After
    an empty match the engine must advance, so the character at the position
    is copied before the next attempt.  Every step consumes a character or
    ends the loop. *)
Fixpoint subn_loop (fuel : nat) (pat : pattern) (repl : str -> str)
    (prev : option ascii) (s : str) : str * nat :=
  match fuel with
  | 0 => (s, 0)
  | S fuel' =>
      match match_here pat prev s with
      | Some (m, rest) =>
          match m with
          | [] =>
              match rest with
              | [] => (repl m, 1)
              | c :: rest' =>
                  let '(out, n) := subn_loop fuel' pat repl (Some c) rest' in
                  (repl m ++ c :: out, S n)
              end
          | _ :: _ =>
              let '(out, n) :=
                subn_loop fuel' pat repl (last_opt prev m) rest in
              (repl m ++ out, S n)
          end
      | None =>
          match s with
          | [] => ([], 0)
          | c :: s' =>
              let '(out, n) := subn_loop fuel' pat repl (Some c) s' in
              (c :: out, n)
          end
      end
  end.

Definition subn (pat : pattern) (repl : str) (s : str) : exn + (str * nat) :=
  match parse_template repl with
  | inl e => inl e
  | inr tpl => inr (subn_loop (S (length s)) pat (expand tpl) None s)
  end.

End Re.

(** ** [collections.Counter] *)

Module Collections.

(** A [Counter] keeps its keys in the order of their first insertion. *)
Definition counter := list (str * nat).

Fixpoint incr (k : str) (d : counter) : counter :=
  match d with
  | [] => [(k, 1)]
  | (k', n) :: d' =>
      if str_eqb k k' then (k', S n) :: d' else (k', n) :: incr k d'
  end.

Definition Counter (ws : list str) : counter :=
  fold_left (fun d w => incr w d) ws [].

(** [d[k]]: a missing key counts 0. *)
Fixpoint get (d : counter) (k : str) : nat :=
  match d with
  | [] => 0
  | (k', n) :: d' => if str_eqb k k' then n else get d' k
  end.

(** [sorted(items, key=itemgetter(1), reverse=True)]: the sort is stable, an
    item stays ahead of the later items of the same count. *)
Fixpoint insert_desc (x : str * nat) (l : counter) : counter :=
  match l with
  | [] => [x]
  | y :: l' => if snd x <? snd y then y :: insert_desc x l' else x :: l
  end.

Definition sorted_desc (d : counter) : counter :=
  fold_right insert_desc [] d.

(** [most_common(n)], that is [heapq.nlargest(n, items, key=count)]: nothing
    for [n <= 0], else the first [n] items of the descending order. *)
Definition most_common (d : counter) (n : Z) : counter :=
  if (n <=? 0)%Z then [] else firstn (Z.to_nat n) (sorted_desc d).

End Collections.

(** ** The program *)

(** The expression [re.findall(r'\w+', text.lower())] that [count_words],
    [find_word] and [get_word_frequency] share: the tokens of a text. *)
Definition tokenize (content : str) : list str :=
  Re.findall_words (Str.lower content).

Definition str_dec : forall a b : str, {a = b} + {a <> b} :=
  list_eq_dec ascii_dec.

(** [count_words]: the number of [\w+] runs of the lower-cased text. *)
Definition count_words (content : str) : nat :=
  let words := Re.findall_words (Str.lower content) in
  List.length words.

(** [count_chars]. *)
Definition count_chars (content : str) : nat := List.length content.

(** [count_lines]. *)
Definition count_lines (content : str) : nat :=
  List.length (Str.splitlines content).

(** [d[k]] on a plain dictionary. *)
Fixpoint lookup (d : list (str * nat)) (k : str) : option nat :=
  match d with
  | [] => None
  | (k', n) :: d' => if str_eqb k k' then Some n else lookup d' k
  end.

(** [find_word]: a dictionary with the word as given for its only key. *)
Definition find_word (content word : str) : list (str * nat) :=
  let words := Re.findall_words (Str.lower content) in
  let word_counts := Collections.Counter words in
  [(word, Collections.get word_counts (Str.lower word))].

(** The pattern [r'\b' + re.escape(old_word) + r'\b'] with IGNORECASE. *)
Definition word_pattern (old_word : str) : Re.pattern :=
  Re.Boundary :: map Re.Literal old_word ++ [Re.Boundary].

(** [replace_word]: the updated text and the number of replacements, or the
    exception of [re.subn]. *)
Definition replace_word (content old_word new_word : str)
  : exn + (str * nat) :=
  let pattern := word_pattern old_word in
  Re.subn pattern new_word content.

(** [get_word_frequency]. *)
Definition get_word_frequency (content : str) (top_n : Z) : list (str * nat) :=
  let words := Re.findall_words (Str.lower content) in
  Collections.most_common (Collections.Counter words) top_n.

(** *** The dispatcher *)

(** The [argparse.Namespace] of [main]: flags are [False] and options [None]
    unless given. *)
Record namespace : Type := Namespace {
  file : str;
  word_count : bool;
  char_count : bool;
  line_count : bool;
  find : option str;
  replace : option (str * str);
  word_frequency : option Z
}.

(** Truth value of an optional string and of an optional integer, as [if]
    tests them. *)
Definition truthy_str (o : option str) : bool :=
  match o with Some (_ :: _) => true | _ => false end.

Definition truthy_int (o : option Z) : bool :=
  match o with Some n => negb (n =? 0)%Z | None => false end.

(** The file system as the program meets it.  [open(path, 'r').read()] gives
    the text, or raises [FileNotFoundError], or another [IOError] with its
    message, or an exception that is no [OSError] and that neither [except]
    clause of [process_file] catches.

    [fs_write path content] is the whole of [open(path, 'w')] followed by
    [write]: [None] when both complete, the message of the [IOError]
    otherwise.  That is all the program itself can tell.  What a failed write
    leaves behind is not recorded: [open(path, 'w')] may already have created
    or emptied the file. *)
Inductive read_result : Type :=
| ReadOk (content : str)
| FileNotFound
| ReadIOError (msg : str)
| ReadRaises (e : exn).

Record filesystem : Type := Filesystem {
  fs_read : str -> read_result;
  fs_write : str -> str -> option str
}.

(** The state of a run of [process_file]: the result list, and the writes
    that completed so far (path and content). *)
Record state : Type := State {
  results : list str;
  written : list (str * str)
}.

Definition step := state -> exn + state.

Definition append (line : str) : step :=
  fun st => inr (State (results st ++ [line]) (written st)).

Definition write_file (path content : str) : step :=
  fun st => inr (State (results st) (written st ++ [(path, content)])).

Definition skip : step := fun st => inr st.

Definition seq (a b : step) : step :=
  fun st => match a st with inl e => inl e | inr st' => b st' end.

Notation "a ;; b" := (seq a b) (at level 61, right associativity).

Definition when (b : bool) (k : step) : step := if b then k else skip.

Fixpoint for_each (A : Type) (body : A -> step) (l : list A) : step :=
  match l with
  | [] => skip
  | x :: l' => body x ;; for_each body l'
  end.

Definition quoted (s : str) : str := text "'" ++ s ++ text "'".

(** The steps of [process_file] after the file was read. *)
Definition word_count_step (content : str) (args : namespace) : step :=
  when (word_count args)
    (append (text "Word Count: " ++ Str.of_nat (count_words content))).

Definition char_count_step (content : str) (args : namespace) : step :=
  when (char_count args)
    (append (text "Character Count: " ++ Str.of_nat (count_chars content))).

Definition line_count_step (content : str) (args : namespace) : step :=
  when (line_count args)
    (append (text "Line Count: " ++ Str.of_nat (count_lines content))).

Definition find_step (content : str) (args : namespace) : step :=
  match find args with
  | Some word =>
      when (truthy_str (find args))
        (let frequency := find_word content word in
         match lookup frequency word with
         | Some count =>
             append (text "The word " ++ quoted word ++ text " occurs "
                     ++ Str.of_nat count ++ text " times.")
         | None => fun _ => inl (KeyError word)
         end)
  | None => skip
  end.

Definition replace_step (fs : filesystem) (file_path content : str)
    (args : namespace) : step :=
  match replace args with
  | Some (old_word, new_word) =>
      fun st =>
        match replace_word content old_word new_word with
        | inl e => inl e
        | inr (updated_content, replacements) =>
            if 0 <? replacements then
              let new_file_path := text "updated_" ++ file_path in
              match fs_write fs new_file_path updated_content with
              | None =>
                  (write_file new_file_path updated_content ;;
                   append (quoted old_word ++ text " was replaced with "
                           ++ quoted new_word ++ text " "
                           ++ Str.of_nat replacements
                           ++ text " times and saved to " ++ new_file_path)) st
              | Some e =>
                  append (text "Error writing to file " ++ quoted new_file_path
                          ++ text ": " ++ e) st
              end
            else
              append (quoted old_word ++ text " was not found in the file.") st
        end
  | None => skip
  end.

Definition word_frequency_step (content : str) (args : namespace) : step :=
  match word_frequency args with
  | Some n =>
      when (truthy_int (word_frequency args))
        (let top_words := get_word_frequency content n in
         append (text "Top words by frequency:") ;;
         for_each (fun '(word, freq) =>
                     append (text "  " ++ word ++ text ": " ++ Str.of_nat freq))
                  top_words)
  | None => skip
  end.

(** What a call of [process_file] ends in. *)
Inductive outcome : Type :=
| Returned (lines : list str) (files : list (str * str))
| Exited (status : Z) (stdout : list str)
| Raised (e : exn).

Definition process_file (fs : filesystem) (file_path : str) (args : namespace)
  : outcome :=
  match fs_read fs file_path with
  | FileNotFound =>
      Exited 1 [text "Error: File " ++ quoted file_path ++ text " not found."]
  | ReadIOError e =>
      Exited 1 [text "Error reading file " ++ quoted file_path ++ text ": " ++ e]
  | ReadRaises e => Raised e
  | ReadOk content =>
      match (word_count_step content args ;;
             char_count_step content args ;;
             line_count_step content args ;;
             find_step content args ;;
             replace_step fs file_path content args ;;
             word_frequency_step content args) (State [] []) with
      | inl e => Raised e
      | inr st => Returned (results st) (written st)
      end
  end.

(** *** [main] and the command line

    The options as [argparse] recognised them, in the order they were given.
    Each one stores into its own attribute of the namespace; [-f] is
    required.  A command line is a list of well-formed options here: what
    [argparse] does by itself on another one (status 0 after [-h]; status 2
    for an unknown option, a [-wf] value that is no integer, [-r] without its
    two words) happens before the program's own code and is not part of
    [main] below. *)
Inductive flag : Type :=
| FlagFile (path : str)
| FlagWordCount
| FlagCharCount
| FlagLineCount
| FlagFind (word : str)
| FlagReplace (old_word new_word : str)
| FlagWordFrequency (n : Z).

Record partial_namespace : Type := Partial {
  p_file : option str;
  p_word_count : bool;
  p_char_count : bool;
  p_line_count : bool;
  p_find : option str;
  p_replace : option (str * str);
  p_word_frequency : option Z
}.

Definition defaults : partial_namespace :=
  Partial None false false false None None None.

Definition store (ns : partial_namespace) (f : flag) : partial_namespace :=
  match ns with
  | Partial fl wc cc lc fd rp wf =>
      match f with
      | FlagFile p => Partial (Some p) wc cc lc fd rp wf
      | FlagWordCount => Partial fl true cc lc fd rp wf
      | FlagCharCount => Partial fl wc true lc fd rp wf
      | FlagLineCount => Partial fl wc cc true fd rp wf
      | FlagFind w => Partial fl wc cc lc (Some w) rp wf
      | FlagReplace o n => Partial fl wc cc lc fd (Some (o, n)) wf
      | FlagWordFrequency n => Partial fl wc cc lc fd rp (Some n)
      end
  end.

Definition parse_args (argv : list flag) : option namespace :=
  match fold_left store argv defaults with
  | Partial (Some p) wc cc lc fd rp wf => Some (Namespace p wc cc lc fd rp wf)
  | Partial None _ _ _ _ _ _ => None
  end.

(** [main]: the lines printed on standard output, with the exit status when
    the run stops early (2 is the status of an [argparse] usage error). *)
Definition main (fs : filesystem) (argv : list flag) : outcome :=
  match parse_args argv with
  | None => Exited 2 []
  | Some args => process_file fs (file args) args
  end.

(** The attribute a flag stores into. *)
Definition dest (f : flag) : nat :=
  match f with
  | FlagFile _ => 0
  | FlagWordCount => 1
  | FlagCharCount => 2
  | FlagLineCount => 3
  | FlagFind _ => 4
  | FlagReplace _ _ => 5
  | FlagWordFrequency _ => 6
  end.

(** *** The contribution of each operation

    What one operation adds to the result list, stated apart from the
    dispatcher: the dispatcher is compared with their concatenation. *)

Definition word_count_lines (content : str) (args : namespace) : list str :=
  if word_count args
  then [text "Word Count: " ++ Str.of_nat (List.length (tokenize content))]
  else [].

Definition char_count_lines (content : str) (args : namespace) : list str :=
  if char_count args
  then [text "Character Count: " ++ Str.of_nat (List.length content)]
  else [].

Definition line_count_lines (content : str) (args : namespace) : list str :=
  if line_count args
  then [text "Line Count: " ++ Str.of_nat (List.length (Str.splitlines content))]
  else [].

Definition find_lines (content : str) (args : namespace) : list str :=
  match find args with
  | Some (c :: w) =>
      [text "The word " ++ quoted (c :: w) ++ text " occurs "
       ++ Str.of_nat (count_of (tokenize content) (Str.lower (c :: w)))
       ++ text " times."]
  | _ => []
  end.

Definition not_found_line (old_word : str) : str :=
  quoted old_word ++ text " was not found in the file.".

Definition replaced_line (old_word new_word : str) (n : nat) (path : str) : str :=
  quoted old_word ++ text " was replaced with " ++ quoted new_word ++ text " "
  ++ Str.of_nat n ++ text " times and saved to " ++ path.

Definition write_error_line (path e : str) : str :=
  text "Error writing to file " ++ quoted path ++ text ": " ++ e.

(** The replace operation: its lines and the file it writes, or the exception
    of [re.subn]. *)
Definition replace_lines (fs : filesystem) (file_path content : str)
    (args : namespace) : exn + (list str * list (str * str)) :=
  match replace args with
  | None => inr ([], [])
  | Some (old_word, new_word) =>
      match replace_word content old_word new_word with
      | inl e => inl e
      | inr (_, 0) => inr ([not_found_line old_word], [])
      | inr (updated, S n) =>
          let path := text "updated_" ++ file_path in
          match fs_write fs path updated with
          | None => inr ([replaced_line old_word new_word (S n) path],
                         [(path, updated)])
          | Some e => inr ([write_error_line path e], [])
          end
      end
  end.

Definition frequency_line (entry : str * nat) : str :=
  text "  " ++ fst entry ++ text ": " ++ Str.of_nat (snd entry).

Definition word_frequency_lines (content : str) (args : namespace) : list str :=
  match word_frequency args with
  | Some n =>
      if (n =? 0)%Z then []
      else text "Top words by frequency:"
           :: map frequency_line (get_word_frequency content n)
  | None => []
  end.

(** No operation was asked for. *)
Definition no_operation (args : namespace) : Prop :=
  word_count args = false /\ char_count args = false
  /\ line_count args = false /\ find args = None
  /\ replace args = None /\ word_frequency args = None.

(** *** Predicates of the statements *)

(** The order of a ranking: counts never increase. *)
Definition count_ge (x y : str * nat) : Prop := snd y <= snd x.

(** A word: a non-empty run of word characters. *)
Definition word_chars (w : str) : Prop :=
  Forall (fun c => Re.is_word c = true) w.

Definition is_a_word (w : str) : Prop := w <> [] /\ word_chars w.

(** A text that does not go on with a word character. *)
Definition is_break (r : str) : Prop :=
  match r with
  | [] => True
  | d :: _ => Re.is_word d = false
  end.

Definition no_backslash (s : str) : Prop :=
  Forall (fun c => Re.is_backslash c = false) s.

(** The loop of [re.subn] with the fuel the text needs. *)
Definition subn_from (pat : Re.pattern) (repl : str -> str)
    (prev : option ascii) (s : str) : str * nat :=
  Re.subn_loop (S (List.length s)) pat repl prev s.

(** The pattern matches at no position of [s]. *)
Fixpoint quiet (pat : Re.pattern) (prev : option ascii) (s : str) : Prop :=
  Re.match_here pat prev s = None
  /\ match s with
     | [] => True
     | c :: s' => quiet pat (Some c) s'
     end.

(** A step that only adds lines [ls] and files [ws]. *)
Definition adds (k : step) (ls : list str) (ws : list (str * str)) : Prop :=
  forall st, k st = inr (State (results st ++ ls) (written st ++ ws)).

(** *** Occurrences of the old word

    [spells old m]: the text [m] is the word [old] with case ignored, one
    character of [m] for each character of [old], each compared the way an
    IGNORECASE literal is. *)
Fixpoint spells (old m : str) : bool :=
  match old, m with
  | [], [] => true
  | p :: old', c :: m' => Re.char_match p c && spells old' m'
  | _, _ => false
  end.

(** [replaced old repl prev s out n]: the text [out] is [s] with [n] of its
    parts replaced, each of them a part [m] that spells [old] and stands
    between two boundaries, and replaced by [repl m]; every other character
    is kept.  [prev] is the character before [s]. *)
Inductive replaced (old : str) (repl : str -> str)
  : option ascii -> str -> str -> nat -> Prop :=
| replaced_end (prev : option ascii) : replaced old repl prev [] [] 0
| replaced_copy (prev : option ascii) (c : ascii) (s out : str) (n : nat) :
    replaced old repl (Some c) s out n ->
    replaced old repl prev (c :: s) (c :: out) n
| replaced_part (prev : option ascii) (m rest out : str) (n : nat) :
    spells old m = true ->
    Re.at_boundary prev (m ++ rest) = true ->
    Re.at_boundary (Re.last_opt prev m) rest = true ->
    replaced old repl (Re.last_opt prev m) rest out n ->
    replaced old repl prev (m ++ rest) (repl m ++ out) (S n).

(** Whole-word replacement told run by run, without patterns: the text is
    read as its maximal runs of word characters and the characters between
    them; a run that spells the old word becomes the new word and counts,
    everything else is copied.  [cur] is the run being read. *)
Definition respell (old new run : str) : str * nat :=
  if spells old run then (new, 1) else (run, 0).

Fixpoint replace_runs_from (old new cur s : str) : str * nat :=
  match s with
  | [] => respell old new cur
  | c :: s' =>
      if Re.is_word c then replace_runs_from old new (cur ++ [c]) s'
      else
        let '(o1, n1) := respell old new cur in
        let '(o2, n2) := replace_runs_from old new [] s' in
        (o1 ++ c :: o2, n1 + n2)
  end.

Definition replace_whole_words (old new s : str) : str * nat :=
  replace_runs_from old new [] s.

(** What a run of word characters becomes. *)
Definition swap_run (old new run : str) : str :=
  if spells old run then new else run.

(** No character of [s] outside the class [\w] is matched, case ignored, by
    a character of [old].  For a word [old] this holds of every text of this
    development ([only_word_matches_word]); among all code points the
    exception is the combining mark U+0345, which IGNORECASE pairs with the
    Greek iota (U+0399, U+03B9, U+1FBE). *)
Definition only_word_matches (old s : str) : bool :=
  forallb (fun c => Re.is_word c
                    || negb (existsb (fun p => Re.char_match p c) old)) s.

(** *** Notions of the further properties *)

(** The distinct words of a list in the order of their first occurrence;
    [seen] holds the words met so far. *)
Fixpoint first_seen_from (seen : list str) (ws : list str) : list str :=
  match ws with
  | [] => []
  | w :: ws' =>
      if in_dec str_dec w seen then first_seen_from seen ws'
      else w :: first_seen_from (w :: seen) ws'
  end.

Definition first_seen (ws : list str) : list str := first_seen_from [] ws.

(** The sum of the counts of a ranking. *)
Definition total (d : list (str * nat)) : nat := list_sum (map snd d).

(** The entries of a ranking that have the count [k]. *)
Definition with_count (k : nat) (e : str * nat) : bool := Nat.eqb (snd e) k.

(** The two messages [process_file] prints before [sys.exit(1)]. *)
Definition not_found_message (file_path : str) : str :=
  text "Error: File " ++ quoted file_path ++ text " not found.".

Definition read_error_message (file_path e : str) : str :=
  text "Error reading file " ++ quoted file_path ++ text ": " ++ e.

(** The command line names no input file. *)
Definition no_file_flag (argv : list flag) : Prop :=
  forall p, ~ In (FlagFile p) argv.

(** * Properties *)

(** ** Characters *)

Ltac by_cases_on_char c :=
  destruct c as [[] [] [] [] [] [] [] []]; reflexivity.

Lemma lower1_idempotent (c : ascii) :
  Str.lower1 (Str.lower1 c) = Str.lower1 c.
Proof. by_cases_on_char c. Qed.

Lemma is_word_lower1 (c : ascii) :
  Re.is_word (Str.lower1 c) = Re.is_word c.
Proof. by_cases_on_char c. Qed.

Lemma lower_idempotent (s : str) : Str.lower (Str.lower s) = Str.lower s.
Proof.
  unfold Str.lower. rewrite map_map.
  apply map_ext. intro c. apply lower1_idempotent.
Qed.

Lemma lower_app (a b : str) : Str.lower (a ++ b) = Str.lower a ++ Str.lower b.
Proof. apply map_app. Qed.

Lemma lower_length (s : str) : List.length (Str.lower s) = List.length s.
Proof. apply length_map. Qed.

Lemma str_eqb_eq (a b : str) : str_eqb a b = true <-> a = b.
Proof.
  unfold str_eqb. destruct (list_eq_dec ascii_dec a b); split; congruence.
Qed.

Lemma str_eqb_refl (a : str) : str_eqb a a = true.
Proof. now apply str_eqb_eq. Qed.

Lemma str_eqb_neq (a b : str) : str_eqb a b = false <-> a <> b.
Proof.
  unfold str_eqb. destruct (list_eq_dec ascii_dec a b); split; congruence.
Qed.

(** ** Tokens *)

Section Tokens.

Variable P : ascii -> Prop.

(** A property of every character read so far is a property of every
    character of every run. *)
Lemma findall_words_from_Forall (s cur : str) :
  Forall P cur -> Forall P s ->
  Forall (Forall P) (Re.findall_words_from cur s).
Proof.
  revert cur. induction s as [|c s IH]; intros cur Hcur Hs; simpl.
  - destruct cur; simpl; auto.
  - inversion Hs; subst. destruct (Re.is_word c).
    + apply IH; auto. apply Forall_app; auto.
    + apply Forall_app. split.
      * destruct cur; simpl; auto.
      * apply IH; auto.
Qed.

End Tokens.

Lemma findall_words_from_word (s cur : str) :
  Forall (fun c => Re.is_word c = true) cur ->
  Forall (fun w => w <> [] /\ Forall (fun c => Re.is_word c = true) w)
         (Re.findall_words_from cur s).
Proof.
  revert cur. induction s as [|c s IH]; intros cur Hcur; simpl.
  - destruct cur; simpl; auto. constructor; auto. split; [discriminate|auto].
  - destruct (Re.is_word c) eqn:Hc.
    + apply IH. apply Forall_app; auto.
    + apply Forall_app. split.
      * destruct cur; simpl; auto. constructor; auto. split; [discriminate|auto].
      * apply IH. constructor.
Qed.

Lemma tokenize_lowercase (content w : str) :
  In w (tokenize content) -> Str.lower w = w.
Proof.
  intro Hin.
  assert (H : Forall (Forall (fun c => Str.lower1 c = c)) (tokenize content)).
  { apply findall_words_from_Forall; [constructor|].
    unfold Str.lower. apply Forall_forall. intros c Hc.
    apply in_map_iff in Hc. destruct Hc as [d [<- _]].
    apply lower1_idempotent. }
  rewrite Forall_forall in H. specialize (H w Hin). clear Hin.
  unfold Str.lower. induction H; simpl; congruence.
Qed.

Lemma tokenize_word_chars (content w : str) :
  In w (tokenize content) ->
  w <> [] /\ Forall (fun c => Re.is_word c = true) w.
Proof.
  intro Hin.
  pose proof (@findall_words_from_word (Str.lower content) [] (Forall_nil _)) as H.
  rewrite Forall_forall in H. now apply H.
Qed.

Lemma findall_words_no_word (s : str) :
  Forall (fun c => Re.is_word c = false) s -> Re.findall_words s = [].
Proof.
  unfold Re.findall_words. induction 1 as [|c s Hc _ IH]; simpl; auto.
  now rewrite Hc.
Qed.

Lemma tokenize_no_word (content : str) :
  Forall (fun c => Re.is_word c = false) content -> tokenize content = [].
Proof.
  intro H. apply findall_words_no_word.
  unfold Str.lower. apply Forall_forall. intros c Hc.
  apply in_map_iff in Hc. destruct Hc as [d [<- Hd]].
  rewrite is_word_lower1. rewrite Forall_forall in H. now apply H.
Qed.

(** ** Counters *)

Lemma get_incr (d : Collections.counter) (k k' : str) :
  Collections.get (Collections.incr k d) k' =
  if str_eqb k' k then S (Collections.get d k') else Collections.get d k'.
Proof.
  induction d as [|[k0 n] d IH]; simpl.
  - destruct (str_eqb k' k); reflexivity.
  - destruct (str_eqb k k0) eqn:E; simpl.
    + apply str_eqb_eq in E. subst k0.
      destruct (str_eqb k' k); reflexivity.
    + rewrite IH. destruct (str_eqb k' k0) eqn:E'; auto.
      apply str_eqb_eq in E'. subst k0.
      destruct (str_eqb k' k) eqn:E''; auto.
      apply str_eqb_eq in E''. subst k'. rewrite str_eqb_refl in E. discriminate.
Qed.

Lemma get_fold_incr (ws : list str) (d : Collections.counter) (k : str) :
  Collections.get (fold_left (fun d w => Collections.incr w d) ws d) k =
  Collections.get d k + count_of ws k.
Proof.
  unfold count_of.
  revert d. induction ws as [|w ws IH]; intro d; simpl.
  - lia.
  - rewrite IH, get_incr.
    destruct (list_eq_dec ascii_dec w k) as [->|Hne].
    + rewrite str_eqb_refl. lia.
    + assert (E : str_eqb k w = false) by (apply str_eqb_neq; congruence).
      rewrite E. lia.
Qed.

(** [Counter(words)[k]] is the number of occurrences of [k]. *)
Lemma get_Counter (ws : list str) (k : str) :
  Collections.get (Collections.Counter ws) k = count_of ws k.
Proof. unfold Collections.Counter. now rewrite get_fold_incr. Qed.

Lemma keys_incr (d : Collections.counter) (k : str) :
  map fst (Collections.incr k d) =
  if in_dec str_dec k (map fst d) then map fst d else map fst d ++ [k].
Proof.
  induction d as [|[k0 n] d IH].
  - simpl. destruct (in_dec str_dec k []) as [[]|_]. reflexivity.
  - cbn [Collections.incr map fst].
    destruct (str_eqb k k0) eqn:E; cbn [map fst].
    + apply str_eqb_eq in E. subst k0.
      destruct (in_dec str_dec k (k :: map fst d)) as [_|Hn]; [reflexivity|].
      exfalso. apply Hn. now left.
    + apply str_eqb_neq in E. rewrite IH.
      destruct (in_dec str_dec k (map fst d)) as [Hi|Hi];
        destruct (in_dec str_dec k (k0 :: map fst d)) as [Hj|Hj];
        try reflexivity.
      * exfalso. apply Hj. now right.
      * exfalso. destruct Hj as [Hj|Hj]; [congruence|contradiction].
Qed.

Lemma keys_fold_incr (ws : list str) (d : Collections.counter) :
  NoDup (map fst d) ->
  let d' := fold_left (fun d w => Collections.incr w d) ws d in
  NoDup (map fst d') /\
  (forall k, In k (map fst d') <-> In k (map fst d) \/ In k ws).
Proof.
  revert d. induction ws as [|w ws IH]; intros d Hd; simpl.
  - split; auto. intro k; tauto.
  - assert (Hd' : NoDup (map fst (Collections.incr w d))).
    { rewrite keys_incr. destruct (in_dec str_dec w (map fst d)); auto.
      apply NoDup_app_remove_l with (l := []). simpl.
      apply Permutation_NoDup with (l := w :: map fst d).
      - apply Permutation_cons_append.
      - constructor; auto. }
    destruct (IH _ Hd') as [Hnd Hin]. split; auto.
    intro k. rewrite Hin, keys_incr.
    destruct (in_dec str_dec w (map fst d)) as [Hw|Hw].
    + intuition (subst; auto).
    + rewrite in_app_iff. simpl. intuition (subst; auto).
Qed.

Lemma Counter_keys (ws : list str) :
  NoDup (map fst (Collections.Counter ws)) /\
  (forall k, In k (map fst (Collections.Counter ws)) <-> In k ws).
Proof.
  destruct (@keys_fold_incr ws [] (NoDup_nil _)) as [Hnd Hin].
  split; auto. intro k. unfold Collections.Counter. rewrite Hin. simpl. tauto.
Qed.

Lemma get_of_entry (d : Collections.counter) (k : str) (n : nat) :
  NoDup (map fst d) -> In (k, n) d -> Collections.get d k = n.
Proof.
  induction d as [|[k0 n0] d IH]; simpl; intros Hnd Hin; [contradiction|].
  inversion Hnd as [|? ? Hk0 Hnd']; subst.
  destruct Hin as [E|Hin].
  - inversion E; subst. now rewrite str_eqb_refl.
  - destruct (str_eqb k k0) eqn:E.
    + apply str_eqb_eq in E. subst k0. exfalso. apply Hk0.
      apply in_map_iff. now exists (k, n).
    + auto.
Qed.

(** An entry of [Counter(words)] pairs a word that occurs with its number of
    occurrences. *)
Lemma Counter_entry (ws : list str) (k : str) (n : nat) :
  In (k, n) (Collections.Counter ws) -> In k ws /\ n = count_of ws k.
Proof.
  intro Hin. destruct (Counter_keys ws) as [Hnd Hk]. split.
  - apply Hk. apply in_map_iff. now exists (k, n).
  - rewrite <- get_Counter. symmetry. now apply get_of_entry.
Qed.

(** ** The descending order of [most_common] *)

Lemma insert_desc_perm (x : str * nat) (l : Collections.counter) :
  Permutation (Collections.insert_desc x l) (x :: l).
Proof.
  induction l as [|y l IH]; simpl; auto.
  destruct (snd x <? snd y); auto.
  rewrite IH. apply perm_swap.
Qed.

Lemma sorted_desc_perm (d : Collections.counter) :
  Permutation (Collections.sorted_desc d) d.
Proof.
  induction d as [|x d IH]; simpl; auto.
  rewrite insert_desc_perm. now constructor.
Qed.

Lemma insert_desc_sorted (x : str * nat) (l : Collections.counter) :
  StronglySorted count_ge l -> StronglySorted count_ge (Collections.insert_desc x l).
Proof.
  induction 1 as [|y l Hl IH Hy]; simpl.
  - repeat constructor.
  - destruct (snd x <? snd y) eqn:E.
    + apply Nat.ltb_lt in E. constructor; auto.
      apply (Permutation_Forall (Permutation_sym (insert_desc_perm x l))).
      constructor; auto. unfold count_ge. lia.
    + apply Nat.ltb_ge in E. constructor.
      * constructor; auto.
      * constructor; [exact E|].
        eapply Forall_impl; [|exact Hy]. unfold count_ge. intros; lia.
Qed.

Lemma sorted_desc_sorted (d : Collections.counter) :
  StronglySorted count_ge (Collections.sorted_desc d).
Proof.
  induction d as [|x d IH]; simpl.
  - constructor.
  - now apply insert_desc_sorted.
Qed.

Lemma firstn_incl (A : Type) (n : nat) (l : list A) (x : A) :
  In x (firstn n l) -> In x l.
Proof.
  revert l. induction n as [|n IH]; intro l; simpl; [contradiction|].
  destruct l as [|y l]; simpl; [contradiction|].
  intros [H|H]; auto.
Qed.

Lemma firstn_sorted (n : nat) (l : Collections.counter) :
  StronglySorted count_ge l -> StronglySorted count_ge (firstn n l).
Proof.
  revert l. induction n as [|n IH]; intros l Hl; simpl.
  - constructor.
  - destruct l as [|x l]; [constructor|].
    inversion Hl; subst. constructor; auto.
    apply Forall_forall. intros y Hy. apply firstn_incl in Hy.
    rewrite Forall_forall in H2. auto.
Qed.

Lemma firstn_NoDup (A : Type) (n : nat) (l : list A) :
  NoDup l -> NoDup (firstn n l).
Proof.
  revert l. induction n as [|n IH]; intros l Hl; simpl.
  - constructor.
  - destruct l as [|x l]; [constructor|].
    inversion Hl; subst. constructor; auto.
    intro Hx. apply firstn_incl in Hx. contradiction.
Qed.

Lemma most_common_incl (d : Collections.counter) (n : Z) (e : str * nat) :
  In e (Collections.most_common d n) -> In e d.
Proof.
  unfold Collections.most_common. destruct (n <=? 0)%Z; [contradiction|].
  intro H. apply firstn_incl in H.
  eapply Permutation_in; [apply sorted_desc_perm|exact H].
Qed.

Lemma Counter_length (ws : list str) :
  List.length (Collections.Counter ws) = List.length (nodup str_dec ws).
Proof.
  destruct (Counter_keys ws) as [Hnd Hin].
  rewrite <- (length_map fst). apply Permutation_length.
  apply NoDup_Permutation; auto.
  - apply NoDup_nodup.
  - intro k. rewrite Hin, nodup_In. tauto.
Qed.

(** ** [get_word_frequency] *)

(** An entry of the ranking is a token of the text with its number of
    occurrences. *)
Lemma get_word_frequency_entry (content : str) (n : Z) (w : str) (c : nat) :
  In (w, c) (get_word_frequency content n) ->
  In w (tokenize content) /\ c = count_of (tokenize content) w.
Proof.
  intro H. apply most_common_incl in H. now apply Counter_entry.
Qed.

(** C6: [get_word_frequency(T, n)] has at most [n] entries, in descending
    order of count; every entry is a distinct token with its number of
    occurrences; when no more than [n] distinct tokens exist all of them are
    returned; and the result is empty for [n <= 0] and for a text without
    word characters. *)
Theorem get_word_frequency_top_n (content : str) (n : Z) :
  let r := get_word_frequency content n in
  let distinct := nodup str_dec (tokenize content) in
  (Z.of_nat (List.length r) <= Z.max 0 n)%Z
  /\ StronglySorted count_ge r
  /\ NoDup (map fst r)
  /\ (forall w c, In (w, c) r ->
        In w distinct /\ c = count_of (tokenize content) w)
  /\ ((Z.of_nat (List.length distinct) <= n)%Z ->
        Permutation (map fst r) distinct)
  /\ ((n <= 0)%Z -> r = [])
  /\ (Forall (fun ch => Re.is_word ch = false) content -> r = []).
Proof.
  intros r distinct. subst r distinct.
  unfold get_word_frequency. fold (tokenize content).
  set (d := Collections.Counter (tokenize content)).
  destruct (Counter_keys (tokenize content)) as [Hnd Hin]. fold d in Hnd, Hin.
  assert (Hsn : NoDup (map fst (Collections.sorted_desc d))).
  { eapply Permutation_NoDup; [|exact Hnd].
    apply Permutation_map. symmetry. apply sorted_desc_perm. }
  split; [|split; [|split; [|split; [|split; [|split]]]]].
  - unfold Collections.most_common. destruct (n <=? 0)%Z eqn:E.
    + simpl. lia.
    + apply Z.leb_gt in E. rewrite length_firstn. lia.
  - unfold Collections.most_common. destruct (n <=? 0)%Z.
    + constructor.
    + apply firstn_sorted, sorted_desc_sorted.
  - unfold Collections.most_common. destruct (n <=? 0)%Z.
    + constructor.
    + rewrite <- firstn_map. now apply firstn_NoDup.
  - intros w c H. apply most_common_incl, Counter_entry in H.
    destruct H as [Hw Hc]. split; auto. now apply nodup_In.
  - intro Hle. unfold Collections.most_common.
    destruct (n <=? 0)%Z eqn:E.
    + apply Z.leb_le in E.
      destruct (nodup str_dec (tokenize content)); simpl in *; [constructor|lia].
    + rewrite firstn_all2.
      * apply NoDup_Permutation; auto.
        -- apply NoDup_nodup.
        -- intro k. rewrite nodup_In, <- Hin. split; intro Hk.
           ++ eapply Permutation_in; [|exact Hk].
              apply Permutation_map, sorted_desc_perm.
           ++ eapply Permutation_in; [|exact Hk].
              apply Permutation_map. symmetry. apply sorted_desc_perm.
      * rewrite (Permutation_length (sorted_desc_perm d)).
        unfold d. rewrite Counter_length. lia.
  - intro Hle. unfold Collections.most_common.
    apply Z.leb_le in Hle. now rewrite Hle.
  - intro Hnw. unfold d. rewrite (tokenize_no_word Hnw).
    unfold Collections.most_common. destruct (n <=? 0)%Z; auto.
    apply firstn_nil.
Qed.

Lemma get_word_frequency_top_n_witness :
  get_word_frequency (text "the cat sat on the mat") 2
  = [(text "the", 2); (text "cat", 1)]
  /\ get_word_frequency (text "b a") 0 = []
  /\ Permutation (map fst (get_word_frequency (text "b a b") 5))
                 (nodup str_dec (tokenize (text "b a b")))
  /\ get_word_frequency (text "?! ...") 3 = [].
Proof.
  split; [reflexivity|]. split; [|split].
  - destruct (get_word_frequency_top_n (text "b a") 0)
      as (_ & _ & _ & _ & _ & H & _).
    apply H. lia.
  - destruct (get_word_frequency_top_n (text "b a b") 5)
      as (_ & _ & _ & _ & H & _).
    apply H. vm_compute. discriminate.
  - destruct (get_word_frequency_top_n (text "?! ...") 3)
      as (_ & _ & _ & _ & _ & _ & H).
    apply H. repeat constructor.
Defined.

(** C10: every word of the ranking, and every token that [count_words] and
    [find_word] count, equals its own lower-casing. *)
Theorem tokens_are_lowercase (content : str) (n : Z) :
  (forall w c, In (w, c) (get_word_frequency content n) -> Str.lower w = w)
  /\ (forall w, In w (tokenize content) -> Str.lower w = w)
  /\ count_words content = List.length (tokenize content)
  /\ (forall word,
        lookup (find_word content word) word
        = Some (count_of (tokenize content) (Str.lower word))).
Proof.
  split; [|split; [|split]].
  - intros w c H. apply get_word_frequency_entry in H.
    destruct H as [H _]. now apply tokenize_lowercase in H.
  - intros w H. now apply tokenize_lowercase in H.
  - reflexivity.
  - intro word. unfold find_word. simpl. rewrite str_eqb_refl.
    fold (tokenize content). now rewrite get_Counter.
Qed.

Lemma tokens_are_lowercase_witness :
  Str.lower (text "hello") = text "hello"
  /\ Str.lower (text "world") = text "world".
Proof.
  split.
  - apply (proj1 (tokens_are_lowercase (text "Hello WORLD, hello") 1)
             (text "hello") 2).
    vm_compute. left. reflexivity.
  - apply (proj1 (proj2 (tokens_are_lowercase (text "Hello WORLD, hello") 1))
             (text "world")).
    vm_compute. right. left. reflexivity.
Defined.

(** ** [find_word] *)

Lemma lookup_find_word (content word : str) :
  lookup (find_word content word) word
  = Some (count_of (tokenize content) (Str.lower word)).
Proof.
  unfold find_word. simpl. rewrite str_eqb_refl.
  fold (tokenize content). now rewrite get_Counter.
Qed.

Lemma lower_keeps_non_word (word : str) :
  Exists (fun c => Re.is_word c = false) word ->
  Exists (fun c => Re.is_word c = false) (Str.lower word).
Proof.
  induction 1 as [c l Hc|c l _ IH]; simpl.
  - left. now rewrite is_word_lower1.
  - now right.
Qed.

(** C7: [find_word(T, W)] maps [W] to the number of tokens of [T] equal to
    [W] lower-cased; two spellings of [W] that differ in case only give the
    same count; and the count is 0, with no failure, when [W] lower-cased is
    not a token, in particular when [W] holds a non-word character. *)
Theorem find_word_counts_tokens (content word : str) :
  lookup (find_word content word) word
  = Some (count_of (tokenize content) (Str.lower word))
  /\ (forall word', Str.lower word' = Str.lower word ->
        lookup (find_word content word') word'
        = lookup (find_word content word) word)
  /\ (~ In (Str.lower word) (tokenize content) ->
        lookup (find_word content word) word = Some 0)
  /\ (Exists (fun c => Re.is_word c = false) word ->
        lookup (find_word content word) word = Some 0).
Proof.
  split; [apply lookup_find_word|]. split; [|split].
  - intros word' E. rewrite !lookup_find_word. now rewrite E.
  - intro Hn. rewrite lookup_find_word. f_equal.
    now apply count_occ_not_In.
  - intro Hex. rewrite lookup_find_word. f_equal.
    apply count_occ_not_In. intro Hin.
    apply tokenize_word_chars in Hin. destruct Hin as [_ Hall].
    apply lower_keeps_non_word in Hex.
    rewrite Exists_exists in Hex. destruct Hex as [c [Hc Hf]].
    rewrite Forall_forall in Hall. specialize (Hall c Hc). congruence.
Qed.

Lemma find_word_counts_tokens_witness :
  lookup (find_word (text "The cat and the hat") (text "THE")) (text "THE")
  = lookup (find_word (text "The cat and the hat") (text "the")) (text "the")
  /\ lookup (find_word (text "The cat and the hat") (text "dog")) (text "dog")
     = Some 0
  /\ lookup (find_word (text "it's") (text "it's")) (text "it's") = Some 0.
Proof.
  split; [|split].
  - destruct (find_word_counts_tokens (text "The cat and the hat") (text "the"))
      as (_ & H & _).
    apply H. reflexivity.
  - destruct (find_word_counts_tokens (text "The cat and the hat") (text "dog"))
      as (_ & _ & H & _).
    apply H. vm_compute. intuition discriminate.
  - destruct (find_word_counts_tokens (text "it's") (text "it's"))
      as (_ & _ & _ & H).
    apply H. right. right. left. reflexivity.
Defined.

(** ** [count_lines] *)





(** ** The dispatcher *)

Lemma adds_skip : adds skip [] [].
Proof. intros [r w]. unfold skip. simpl. now rewrite !app_nil_r. Qed.

Lemma adds_append (line : str) : adds (append line) [line] [].
Proof. intros [r w]. unfold append. simpl. now rewrite app_nil_r. Qed.

Lemma adds_write_file (path content : str) :
  adds (write_file path content) [] [(path, content)].
Proof. intros [r w]. unfold write_file. simpl. now rewrite app_nil_r. Qed.

Lemma adds_seq (a b : step) (la lb : list str) (wa wb : list (str * str)) :
  adds a la wa -> adds b lb wb -> adds (a ;; b) (la ++ lb) (wa ++ wb).
Proof.
  intros Ha Hb st. unfold seq. rewrite Ha, Hb. simpl.
  now rewrite !app_assoc.
Qed.

Lemma adds_when (b : bool) (k : step) (ls : list str) :
  adds k ls [] -> adds (when b k) (if b then ls else []) [].
Proof. intro Hk. destruct b; simpl; [exact Hk|apply adds_skip]. Qed.

Lemma adds_for_each (A : Type) (body : A -> step) (line : A -> str) (l : list A) :
  (forall x, adds (body x) [line x] []) ->
  adds (for_each body l) (map line l) [].
Proof.
  intro Hb. induction l as [|x l IH]; simpl.
  - apply adds_skip.
  - apply (adds_seq (Hb x) IH).
Qed.

Create HintDb steps.

#[local] Hint Resolve adds_skip adds_append adds_write_file : steps.

Lemma word_count_step_adds (content : str) (args : namespace) :
  adds (word_count_step content args) (word_count_lines content args) [].
Proof. apply adds_when. apply adds_append. Qed.

Lemma char_count_step_adds (content : str) (args : namespace) :
  adds (char_count_step content args) (char_count_lines content args) [].
Proof. apply adds_when. apply adds_append. Qed.

Lemma line_count_step_adds (content : str) (args : namespace) :
  adds (line_count_step content args) (line_count_lines content args) [].
Proof. apply adds_when. apply adds_append. Qed.

Lemma find_step_adds (content : str) (args : namespace) :
  adds (find_step content args) (find_lines content args) [].
Proof.
  unfold find_step, find_lines. destruct (find args) as [[|c w]|]; simpl;
    auto with steps.
  rewrite str_eqb_refl. fold (tokenize content). rewrite get_Counter.
  apply adds_append.
Qed.

Lemma word_frequency_step_adds (content : str) (args : namespace) :
  adds (word_frequency_step content args) (word_frequency_lines content args) [].
Proof.
  unfold word_frequency_step, word_frequency_lines.
  destruct (word_frequency args) as [n|]; simpl; auto with steps.
  destruct (n =? 0)%Z; simpl; auto with steps.
  apply (@adds_seq _ _ [_] _ [] []); [apply adds_append|].
  apply adds_for_each. intros [w f]. apply adds_append.
Qed.

(** The replace step adds what [replace_lines] says, or raises as it does. *)
Lemma replace_step_spec (fs : filesystem) (file_path content : str)
    (args : namespace) (st : state) :
  replace_step fs file_path content args st =
  match replace_lines fs file_path content args with
  | inl e => inl e
  | inr (ls, ws) => inr (State (results st ++ ls) (written st ++ ws))
  end.
Proof.
  unfold replace_step, replace_lines.
  destruct (replace args) as [[old_word new_word]|]; [|apply adds_skip].
  destruct (replace_word content old_word new_word) as [e|[updated [|n]]]; auto.
  - simpl. apply adds_append.
  - cbn [Nat.ltb Nat.leb].
    destruct (fs_write fs (text "updated_" ++ file_path) updated).
    + apply adds_append.
    + apply (@adds_seq _ _ [] [_] [_] []); auto with steps.
Qed.

Lemma fold_store_perm (l l' : list flag) :
  Permutation l l' -> NoDup (map dest l) ->
  forall ns, fold_left store l ns = fold_left store l' ns.
Proof.
  induction 1 as [|x l l' _ IH|x y l|l l' l'' H1 IH1 H2 IH2]; intros Hnd ns.
  - reflexivity.
  - simpl. apply IH. now inversion Hnd.
  - simpl. f_equal. simpl in Hnd.
    assert (Hxy : dest y <> dest x).
    { inversion Hnd as [|? ? Hn _]; subst. intro E. apply Hn. now left. }
    destruct ns, x, y; simpl in *; try reflexivity; congruence.
  - rewrite IH1; auto. apply IH2.
    eapply Permutation_NoDup; [|exact Hnd]. now apply Permutation_map.
Qed.

Lemma process_file_spec (fs : filesystem) (file_path : str) (args : namespace)
    (content : str) :
  fs_read fs file_path = ReadOk content ->
  process_file fs file_path args =
  match replace_lines fs file_path content args with
  | inl e => Raised e
  | inr (ls, ws) =>
      Returned (word_count_lines content args ++ char_count_lines content args
                ++ line_count_lines content args ++ find_lines content args
                ++ ls ++ word_frequency_lines content args) ws
  end.
Proof.
  intro Hread. unfold process_file. rewrite Hread. unfold seq.
  rewrite word_count_step_adds, char_count_step_adds, line_count_step_adds,
    find_step_adds, replace_step_spec.
  destruct (replace_lines fs file_path content args) as [e|[ls ws]]; auto.
  rewrite word_frequency_step_adds. simpl.
  rewrite !app_nil_r, <- !app_assoc. reflexivity.
Qed.

(** With [-wf 0] the ranking asked for is empty and nothing is added, not
    even the header; with [-wf -1] the ranking is empty as well and the header
    is added. *)
Lemma word_frequency_zero_and_negative (fs : filesystem) (file_path : str)
    (content : str) :
  fs_read fs file_path = ReadOk content ->
  get_word_frequency content 0 = []
  /\ process_file fs file_path
       (Namespace file_path false false false None None (Some 0%Z))
     = Returned [] []
  /\ process_file fs file_path
       (Namespace file_path false false false None None (Some (-1)%Z))
     = Returned [text "Top words by frequency:"] [].
Proof.
  intro Hread. split; [reflexivity|].
  split; rewrite (@process_file_spec fs file_path _ content Hread); reflexivity.
Qed.

(** The claim C2 fails for [N = 0]: the option was supplied, and no header
    line is added. *)
Lemma word_frequency_zero_no_header :
  main (Filesystem (fun _ => ReadOk (text "the cat")) (fun _ _ => None))
       [FlagFile (text "in.txt"); FlagWordFrequency 0]
  = process_file
      (Filesystem (fun _ => ReadOk (text "the cat")) (fun _ _ => None))
      (text "in.txt")
      (Namespace (text "in.txt") false false false None None (Some 0%Z))
  /\ process_file
       (Filesystem (fun _ => ReadOk (text "the cat")) (fun _ _ => None))
       (text "in.txt")
       (Namespace (text "in.txt") false false false None None (Some 0%Z))
     = Returned [] []
  /\ Returned [] [] <> Returned [text "Top words by frequency:"] [].
Proof. repeat split. discriminate. Qed.

Lemma word_frequency_nonzero_lines (content : str) (args : namespace) (n : Z) :
  word_frequency args = Some n -> n <> 0%Z ->
  word_frequency_lines content args
  = text "Top words by frequency:"
    :: map frequency_line (get_word_frequency content n).
Proof.
  intros Hn Hnz. unfold word_frequency_lines. rewrite Hn.
  destruct (n =? 0)%Z eqn:E; [apply Z.eqb_eq in E; contradiction|reflexivity].
Qed.

(** C2, as the code has it: whenever the top-N option is given with a nonzero
    [N], the step adds a header line followed by one line per pair of the
    ranking, in ranked order, and these are the last lines of the result list
    of [process_file]. *)
Theorem word_frequency_header_and_lines (fs : filesystem) (file_path : str)
    (args : namespace) (content : str) (n : Z) :
  fs_read fs file_path = ReadOk content ->
  word_frequency args = Some n -> n <> 0%Z ->
  adds (word_frequency_step content args)
       (text "Top words by frequency:"
        :: map frequency_line (get_word_frequency content n)) []
  /\ (forall ls ws,
        replace_lines fs file_path content args = inr (ls, ws) ->
        process_file fs file_path args =
        Returned ((word_count_lines content args ++ char_count_lines content args
                   ++ line_count_lines content args ++ find_lines content args
                   ++ ls)
                  ++ text "Top words by frequency:"
                     :: map frequency_line (get_word_frequency content n)) ws).
Proof.
  intros Hread Hn Hnz. split.
  - rewrite <- (word_frequency_nonzero_lines content args Hn Hnz).
    apply word_frequency_step_adds.
  - intros ls ws E.
    rewrite (@process_file_spec fs file_path args content Hread), E.
    rewrite (word_frequency_nonzero_lines content args Hn Hnz).
    now rewrite <- !app_assoc.
Qed.

Lemma word_frequency_header_and_lines_witness :
  process_file
    (Filesystem (fun _ => ReadOk (text "the cat; The dog")) (fun _ _ => None))
    (text "in.txt")
    (Namespace (text "in.txt") false true false None None (Some 2%Z))
  = Returned [text "Character Count: 16"; text "Top words by frequency:";
              text "  the: 2"; text "  cat: 1"] [].
Proof.
  destruct (@word_frequency_header_and_lines
              (Filesystem (fun _ => ReadOk (text "the cat; The dog"))
                          (fun _ _ => None))
              (text "in.txt")
              (Namespace (text "in.txt") false true false None None (Some 2%Z))
              (text "the cat; The dog") 2%Z eq_refl eq_refl)
    as (_ & H); [discriminate|].
  rewrite (H [] [] eq_refl). reflexivity.
Defined.

(** ** Matching *)

(** A match is a prefix of the text. *)
Lemma match_here_app (pat : Re.pattern) :
  forall prev s m rest,
    Re.match_here pat prev s = Some (m, rest) -> s = m ++ rest.
Proof.
  induction pat as [|[|p] pat IH]; intros prev s m rest H; simpl in H.
  - now inversion H.
  - destruct (Re.at_boundary prev s); [eauto|discriminate].
  - destruct s as [|c s]; [discriminate|].
    destruct (Re.char_match p c); [|discriminate].
    destruct (Re.match_here pat (Some c) s) as [[m' rest']|] eqn:E;
      [|discriminate].
    inversion H; subst. simpl. f_equal. eauto.
Qed.

Lemma char_match_lower (p c : ascii) :
  Re.char_match p c = true <-> Str.lower1 c = Str.lower1 p.
Proof. unfold Re.char_match. apply Ascii.eqb_eq. Qed.

(** The literals of the old word, then the closing boundary. *)
Lemma match_literals (old : str) :
  forall prev s m rest,
    Re.match_here (map Re.Literal old ++ [Re.Boundary]) prev s = Some (m, rest) ->
    Str.lower m = Str.lower old
    /\ Re.at_boundary (Re.last_opt prev m) rest = true.
Proof.
  induction old as [|p old IH]; intros prev s m rest H; simpl in H.
  - destruct (Re.at_boundary prev s) eqn:E; [|discriminate].
    inversion H; subst. auto.
  - destruct s as [|c s]; [discriminate|].
    destruct (Re.char_match p c) eqn:Ec; [|discriminate].
    destruct (Re.match_here _ (Some c) s) as [[m' rest']|] eqn:E;
      [|discriminate].
    inversion H; subst. apply IH in E. destruct E as [El Eb].
    apply char_match_lower in Ec. simpl. split; [congruence|exact Eb].
Qed.

(** What a match of the word pattern is: a part of the text that spells the
    old word up to case, with a boundary before it and one after it. *)
Lemma match_word_pattern (old : str) (prev : option ascii) (s m rest : str) :
  Re.match_here (word_pattern old) prev s = Some (m, rest) ->
  s = m ++ rest
  /\ Str.lower m = Str.lower old
  /\ Re.at_boundary prev s = true
  /\ Re.at_boundary (Re.last_opt prev m) rest = true.
Proof.
  intro H. split; [now apply match_here_app in H|].
  unfold word_pattern in H. simpl in H.
  destruct (Re.at_boundary prev s); [|discriminate].
  apply match_literals in H. tauto.
Qed.

(** ** The substitution loop *)

(** Fuel beyond the length of the text changes nothing. *)
Lemma subn_loop_fuel (pat : Re.pattern) (repl : str -> str) (fuel : nat) :
  forall fuel' prev s,
    List.length s < fuel -> List.length s < fuel' ->
    Re.subn_loop fuel pat repl prev s = Re.subn_loop fuel' pat repl prev s.
Proof.
  induction fuel as [|fuel IH]; intros fuel' prev s H H'; [lia|].
  destruct fuel' as [|fuel']; [lia|]. simpl.
  destruct (Re.match_here pat prev s) as [[m rest]|] eqn:E.
  - apply match_here_app in E. subst s. rewrite length_app in H, H'.
    destruct m as [|c m].
    + destruct rest as [|c rest]; auto.
      simpl in H, H'. rewrite (IH fuel'); auto; lia.
    + simpl in H, H'. rewrite (IH fuel'); auto; lia.
  - destruct s as [|c s]; auto.
    simpl in H, H'. rewrite (IH fuel'); auto; lia.
Qed.

Lemma subn_from_match (pat : Re.pattern) (repl : str -> str)
    (prev : option ascii) (s m rest : str) :
  m <> [] ->
  Re.match_here pat prev s = Some (m, rest) ->
  subn_from pat repl prev s =
  let '(out, n) := subn_from pat repl (Re.last_opt prev m) rest in
  (repl m ++ out, S n).
Proof.
  intros Hm E. unfold subn_from. simpl. rewrite E.
  pose proof (match_here_app _ _ _ E) as Hs.
  destruct m as [|c m]; [congruence|].
  rewrite (@subn_loop_fuel pat repl (List.length s) (S (List.length rest)));
    auto; subst s; rewrite length_app; simpl; lia.
Qed.

Lemma subn_from_copy (pat : Re.pattern) (repl : str -> str)
    (prev : option ascii) (c : ascii) (s : str) :
  Re.match_here pat prev (c :: s) = None ->
  subn_from pat repl prev (c :: s) =
  let '(out, n) := subn_from pat repl (Some c) s in (c :: out, n).
Proof. intro E. unfold subn_from. simpl. now rewrite E. Qed.

Lemma subn_from_end (pat : Re.pattern) (repl : str -> str)
    (prev : option ascii) :
  Re.match_here pat prev [] = None -> subn_from pat repl prev [] = ([], 0).
Proof. intro E. unfold subn_from. simpl. now rewrite E. Qed.

(** A loop that replaces nothing returns the text as it was. *)
Lemma subn_loop_zero (pat : Re.pattern) (repl : str -> str) (fuel : nat) :
  forall prev s out,
    Re.subn_loop fuel pat repl prev s = (out, 0) -> out = s.
Proof.
  induction fuel as [|fuel IH]; intros prev s out H; simpl in H.
  - now inversion H.
  - destruct (Re.match_here pat prev s) as [[m rest]|].
    + destruct m as [|c m].
      * destruct rest as [|c rest]; [discriminate|].
        destruct (Re.subn_loop fuel pat repl (Some c) rest). discriminate.
      * destruct (Re.subn_loop fuel pat repl _ rest). discriminate.
    + destruct s as [|c s]; [now inversion H|].
      destruct (Re.subn_loop fuel pat repl (Some c) s) as [o n] eqn:E.
      inversion H; subst. f_equal. eauto.
Qed.

(** Where the pattern matches nowhere, nothing is replaced. *)
Lemma subn_loop_quiet (pat : Re.pattern) (repl : str -> str) (fuel : nat) :
  forall prev s, quiet pat prev s -> Re.subn_loop fuel pat repl prev s = (s, 0).
Proof.
  induction fuel as [|fuel IH]; intros prev s H; simpl; auto.
  destruct s as [|c s]; simpl in H; destruct H as [E H]; rewrite E; auto.
  now rewrite IH.
Qed.

(** ** Whole words *)

Lemma is_break_hd (r : str) :
  is_break r -> Re.is_word_opt (hd_error r) = false.
Proof. destruct r; simpl; auto. Qed.

Lemma char_match_word (p c : ascii) :
  Re.char_match p c = true -> Re.is_word c = Re.is_word p.
Proof.
  intro H. apply char_match_lower in H.
  now rewrite <- (is_word_lower1 c), <- (is_word_lower1 p), H.
Qed.

Lemma last_opt_word (w : str) :
  forall prev, Re.is_word_opt prev = true -> word_chars w ->
               Re.is_word_opt (Re.last_opt prev w) = true.
Proof.
  induction w as [|c w IH]; intros prev Hp Hw; simpl; auto.
  inversion Hw; subst. apply IH; auto.
Qed.

(** After a word character, the rest of an old word matches a run of word
    characters exactly when the run spells it up to case. *)
Lemma match_literals_run (old : str) :
  forall prev w r,
    Re.is_word_opt prev = true -> word_chars old -> word_chars w -> is_break r ->
    Re.match_here (map Re.Literal old ++ [Re.Boundary]) prev (w ++ r) =
    if str_eqb (Str.lower w) (Str.lower old) then Some (w, r) else None.
Proof.
  induction old as [|p old IH]; intros prev w r Hp Hold Hw Hr.
  - destruct w as [|c w]; simpl.
    + unfold Re.at_boundary. rewrite Hp, (is_break_hd _ Hr). reflexivity.
    + inversion Hw; subst. unfold Re.at_boundary. simpl. rewrite Hp, H1.
      reflexivity.
  - inversion Hold as [|? ? Hpw Hold']; subst.
    destruct w as [|c w].
    + cbn [app map Re.match_here Str.lower].
      replace (str_eqb [] (Str.lower1 p :: map Str.lower1 old)) with false
        by (symmetry; apply str_eqb_neq; discriminate).
      destruct r as [|d r]; auto.
      destruct (Re.char_match p d) eqn:E; auto.
      apply char_match_word in E. simpl in Hr. congruence.
    + inversion Hw as [|? ? Hcw Hw']; subst.
      cbn [app map Re.match_here Str.lower].
      destruct (Re.char_match p c) eqn:E.
      * rewrite IH; auto. fold (Str.lower w) (Str.lower old).
        apply char_match_lower in E.
        destruct (str_eqb (Str.lower w) (Str.lower old)) eqn:E'.
        -- apply str_eqb_eq in E'.
           replace (str_eqb _ _) with true; auto.
           symmetry. apply str_eqb_eq. congruence.
        -- apply str_eqb_neq in E'.
           replace (str_eqb _ _) with false; auto.
           symmetry. apply str_eqb_neq. congruence.
      * replace (str_eqb _ _) with false; auto.
        symmetry. apply str_eqb_neq. intro H. inversion H.
        apply char_match_lower in H1. congruence.
Qed.

(** At the start of a maximal run [w] of word characters, an old word that is
    a word matches exactly when no word character comes before and the whole
    run spells it up to case: never a part of a longer run. *)
Lemma match_word_run (old : str) (prev : option ascii) (w r : str) :
  is_a_word old -> word_chars w -> is_break r ->
  Re.match_here (word_pattern old) prev (w ++ r) =
  if negb (Re.is_word_opt prev) && str_eqb (Str.lower w) (Str.lower old)
  then Some (w, r) else None.
Proof.
  intros [Hne Hold] Hw Hr. destruct old as [|p old]; [congruence|].
  inversion Hold as [|? ? Hp Hold']; subst.
  unfold word_pattern. cbn [map app Re.match_here].
  destruct w as [|c w].
  - cbn [app Str.lower map].
    replace (str_eqb [] _) with false
      by (symmetry; apply str_eqb_neq; discriminate).
    rewrite andb_false_r.
    destruct (Re.at_boundary prev r); auto.
    destruct r as [|d r]; auto.
    destruct (Re.char_match p d) eqn:E; auto.
    apply char_match_word in E. simpl in Hr. congruence.
  - inversion Hw as [|? ? Hc Hw']; subst.
    unfold Re.at_boundary. cbn [app hd_error Re.is_word_opt]. rewrite Hc.
    rewrite xorb_true_r.
    destruct (Re.is_word_opt prev); cbn [negb andb]; auto.
    destruct (Re.char_match p c) eqn:E.
    + rewrite match_literals_run; auto.
      fold (Str.lower w) (Str.lower old). apply char_match_lower in E.
      cbn [Str.lower map].
      destruct (str_eqb (Str.lower w) (Str.lower old)) eqn:E'.
      * apply str_eqb_eq in E'.
        replace (str_eqb _ _) with true; auto.
        symmetry. apply str_eqb_eq. unfold Str.lower in E'. congruence.
      * apply str_eqb_neq in E'.
        replace (str_eqb _ _) with false; auto.
        symmetry. apply str_eqb_neq. unfold Str.lower in E'. congruence.
    + replace (str_eqb _ _) with false; auto.
      symmetry. apply str_eqb_neq. intro H. inversion H.
      apply char_match_lower in H1. congruence.
Qed.

(** ** Zero matches *)

(** C5: when [replace_word] reports zero replacements the text it returns is
    the text it was given, and the dispatcher then writes no file and adds
    the "not found" line. *)
Theorem zero_matches_leave_text (content old_word new_word updated : str) :
  replace_word content old_word new_word = inr (updated, 0) ->
  updated = content
  /\ (forall fs file_path args,
        replace args = Some (old_word, new_word) ->
        adds (replace_step fs file_path content args)
             [not_found_line old_word] [])
  /\ (forall fs file_path args,
        fs_read fs file_path = ReadOk content ->
        replace args = Some (old_word, new_word) ->
        process_file fs file_path args =
        Returned (word_count_lines content args ++ char_count_lines content args
                  ++ line_count_lines content args ++ find_lines content args
                  ++ [not_found_line old_word]
                  ++ word_frequency_lines content args) []).
Proof.
  intro H.
  assert (Hl : forall fs file_path args,
             replace args = Some (old_word, new_word) ->
             replace_lines fs file_path content args
             = inr ([not_found_line old_word], [])).
  { intros fs file_path args Hr. unfold replace_lines. now rewrite Hr, H. }
  split; [|split].
  - unfold replace_word, Re.subn in H.
    destruct (Re.parse_template new_word) as [e|tpl]; [discriminate|].
    apply (@subn_loop_zero (word_pattern old_word) (Re.expand tpl)
             (S (List.length content)) None content updated).
    injection H as H'. exact H'.
  - intros fs file_path args Hr st.
    now rewrite replace_step_spec, (Hl fs file_path args Hr).
  - intros fs file_path args Hread Hr.
    now rewrite (@process_file_spec fs file_path args content Hread),
      (Hl fs file_path args Hr).
Qed.

Lemma zero_matches_leave_text_witness :
  text "concatenate cats" = text "concatenate cats"
  /\ process_file
       (Filesystem (fun _ => ReadOk (text "concatenate cats")) (fun _ _ => None))
       (text "in.txt")
       (Namespace (text "in.txt") false false false None
                  (Some (text "cat", text "dog")) None)
     = Returned [text "'cat' was not found in the file."] [].
Proof.
  destruct (@zero_matches_leave_text (text "concatenate cats") (text "cat")
              (text "dog") (text "concatenate cats") eq_refl) as (H1 & _ & H3).
  split; [exact H1|].
  apply (H3 (Filesystem (fun _ => ReadOk (text "concatenate cats"))
                        (fun _ _ => None))
            (text "in.txt")
            (Namespace (text "in.txt") false false false None
                       (Some (text "cat", text "dog")) None));
    reflexivity.
Defined.

(** ** Replacement templates *)

Lemma getuntil_gt_length (s : str) :
  forall name rest,
    Re.getuntil_gt s = Some (name, rest) -> List.length rest < List.length s.
Proof.
  induction s as [|c s IH]; intros name rest H; simpl in H; [discriminate|].
  destruct (N.eqb (ord c) 62).
  - inversion H; subst. simpl. lia.
  - destruct (Re.getuntil_gt s) as [[name' rest']|]; [|discriminate].
    inversion H; subst. specialize (IH _ _ eq_refl). simpl. lia.
Qed.

(** The length of the source is fuel enough for the template parser: more
    fuel gives the same template or the same exception. *)
Lemma parse_template_from_fuel (fuel : nat) :
  forall fuel' s,
    List.length s <= fuel -> List.length s <= fuel' ->
    Re.parse_template_from fuel s = Re.parse_template_from fuel' s.
Proof.
  induction fuel as [|fuel IH]; intros fuel' s H H'.
  - destruct s; [|simpl in H; lia]. now destruct fuel'.
  - destruct fuel' as [|fuel'].
    + destruct s; [reflexivity|simpl in H'; lia].
    + cbn [Re.parse_template_from].
      repeat match goal with
             | |- (if ?b then _ else _) = _ => destruct b
             | |- match ?x with _ => _ end = _ => destruct x eqn:?
             end;
        try reflexivity;
        repeat match goal with
               | E : Re.getuntil_gt _ = Some _ |- _ =>
                   apply getuntil_gt_length in E
               end;
        f_equal; apply IH; simpl in *; lia.
Qed.


Lemma expand_literals (s m : str) :
  Re.expand (map (fun c => Re.Lit [c]) s) m = s.
Proof. induction s as [|c s IH]; simpl; congruence. Qed.

Lemma parse_template_from_plain (fuel : nat) :
  forall s, List.length s <= fuel -> no_backslash s ->
            Re.parse_template_from fuel s = inr (map (fun c => Re.Lit [c]) s).
Proof.
  induction fuel as [|fuel IH]; intros s Hlen Hs.
  - destruct s; [reflexivity|simpl in Hlen; lia].
  - destruct s as [|c s]; [reflexivity|].
    inversion Hs as [|? ? Hc Hs']; subst. simpl in Hlen.
    cbn [Re.parse_template_from]. rewrite Hc, IH by (auto; lia).
    reflexivity.
Qed.

(** A replacement without a backslash stands for itself at every match. *)
Lemma parse_template_plain (repl : str) :
  no_backslash repl ->
  exists tpl, Re.parse_template repl = inr tpl
              /\ forall m, Re.expand tpl m = repl.
Proof.
  intro H. exists (map (fun c => Re.Lit [c]) repl). split.
  - now apply parse_template_from_plain.
  - apply expand_literals.
Qed.

Lemma subn_loop_ext (pat : Re.pattern) (repl repl' : str -> str) (fuel : nat) :
  (forall m, repl m = repl' m) ->
  forall prev s,
    Re.subn_loop fuel pat repl prev s = Re.subn_loop fuel pat repl' prev s.
Proof.
  intro Hext. induction fuel as [|fuel IH]; intros prev s; simpl; auto.
  destruct (Re.match_here pat prev s) as [[m rest]|].
  - destruct m as [|c m].
    + destruct rest as [|d rest]; rewrite ?IH, ?Hext; auto.
    + rewrite IH, Hext. reflexivity.
  - destruct s; auto. now rewrite IH.
Qed.

Lemma word_chars_no_backslash (w : str) : word_chars w -> no_backslash w.
Proof.
  unfold word_chars, no_backslash. apply Forall_impl. intros c Hc.
  destruct (Re.is_backslash c) eqn:E; auto.
  unfold Re.is_backslash in E. apply N.eqb_eq in E.
  unfold Re.is_word, Str.isalnum, in_range in Hc. rewrite E in Hc.
  discriminate.
Qed.

(** [replace_word] with a replacement that has no backslash. *)
Lemma replace_word_plain (content old_word new_word : str) :
  no_backslash new_word ->
  replace_word content old_word new_word
  = inr (subn_from (word_pattern old_word) (fun _ => new_word) None content).
Proof.
  intro H. destruct (parse_template_plain H) as [tpl [Hp He]].
  unfold replace_word, Re.subn. rewrite Hp. f_equal.
  unfold subn_from. now apply subn_loop_ext.
Qed.

(** A call of [replace_word] that returns ran the loop on a template. *)
Lemma replace_word_returns (content old_word new_word : str) (r : str * nat) :
  replace_word content old_word new_word = inr r ->
  exists tpl,
    Re.parse_template new_word = inr tpl
    /\ subn_from (word_pattern old_word) (Re.expand tpl) None content = r.
Proof.
  unfold replace_word, Re.subn, subn_from.
  destruct (Re.parse_template new_word) as [e|tpl]; [discriminate|].
  intro H. exists tpl. split; [reflexivity|]. injection H as H. exact H.
Qed.

(** ** Runs of word characters *)

(** Every text starts with a run of word characters, possibly empty, that
    ends at a break. *)
Lemma run_decomposition (s : str) :
  exists w r, s = w ++ r /\ word_chars w /\ is_break r.
Proof.
  induction s as [|c s (w & r & Hs & Hw & Hr)].
  - exists [], []. repeat split. constructor.
  - destruct (Re.is_word c) eqn:E.
    + exists (c :: w), r. subst s. repeat split; auto. now constructor.
    + exists [], (c :: s). repeat split; auto. constructor.
Qed.

Lemma lower_word_chars (w : str) : word_chars w -> word_chars (Str.lower w).
Proof.
  unfold word_chars, Str.lower. intro H. apply Forall_forall. intros c Hc.
  apply in_map_iff in Hc. destruct Hc as [d [<- Hd]].
  rewrite is_word_lower1. rewrite Forall_forall in H. auto.
Qed.

Lemma lower_is_break (r : str) : is_break r -> is_break (Str.lower r).
Proof. destruct r; simpl; auto. now rewrite is_word_lower1. Qed.

Lemma findall_words_from_run (w : str) :
  forall cur r, word_chars w ->
    Re.findall_words_from cur (w ++ r) = Re.findall_words_from (cur ++ w) r.
Proof.
  induction w as [|c w IH]; intros cur r Hw; simpl.
  - now rewrite app_nil_r.
  - inversion Hw; subst. rewrite H1, IH by auto. now rewrite <- app_assoc.
Qed.

(** The tokens of a text that starts with the maximal run [w]. *)
Lemma findall_words_run (w r : str) :
  w <> [] -> word_chars w -> is_break r ->
  Re.findall_words (w ++ r) = w :: Re.findall_words (tl r).
Proof.
  intros Hne Hw Hr. unfold Re.findall_words.
  rewrite findall_words_from_run by auto. simpl.
  destruct w as [|c w]; [congruence|].
  destruct r as [|d r]; simpl; auto.
  simpl in Hr. now rewrite Hr.
Qed.

Lemma findall_words_break (d : ascii) (r : str) :
  Re.is_word d = false -> Re.findall_words (d :: r) = Re.findall_words r.
Proof. intro H. unfold Re.findall_words. simpl. now rewrite H. Qed.

Section OldWord.

Variable old : str.
Hypothesis old_word : is_a_word old.
Variable repl : str -> str.

Lemma no_match_at_break (prev : option ascii) (r : str) :
  is_break r -> Re.match_here (word_pattern old) prev r = None.
Proof.
  intro Hr.
  pose proof (@match_word_run old prev [] r old_word (Forall_nil _) Hr) as H.
  cbn [app] in H. rewrite H.
  destruct old_word as [Hne _]. destruct old; [congruence|].
  replace (str_eqb _ _) with false
    by (symmetry; apply str_eqb_neq; discriminate).
  now rewrite andb_false_r.
Qed.

Lemma no_match_in_run (prev : option ascii) (w r : str) :
  word_chars w -> is_break r ->
  Re.is_word_opt prev = true \/ Str.lower w <> Str.lower old ->
  Re.match_here (word_pattern old) prev (w ++ r) = None.
Proof.
  intros Hw Hr Hc. rewrite match_word_run; auto.
  destruct Hc as [Hp|Hne].
  - now rewrite Hp.
  - apply str_eqb_neq in Hne. rewrite Hne. now rewrite andb_false_r.
Qed.

(** The loop at a break: the end of the text, or a non-word character that
    is copied. *)
Lemma subn_from_break (prev : option ascii) (r : str) :
  is_break r ->
  subn_from (word_pattern old) repl prev r =
  match r with
  | [] => ([], 0)
  | d :: r' => let '(out, n) := subn_from (word_pattern old) repl (Some d) r' in (d :: out, n)
  end.
Proof.
  intro Hr. pose proof (no_match_at_break prev r Hr) as E.
  destruct r; [now apply subn_from_end|now apply subn_from_copy].
Qed.

(** The loop copies a run that does not spell the old word, or that follows
    a word character. *)
Lemma subn_from_run_copy (w : str) :
  forall prev r,
    w <> [] -> word_chars w -> is_break r ->
    Re.is_word_opt prev = true \/ Str.lower w <> Str.lower old ->
    subn_from (word_pattern old) repl prev (w ++ r) =
    let '(out, n) := subn_from (word_pattern old) repl (Re.last_opt prev w) r in
    (w ++ out, n).
Proof.
  induction w as [|c w IH]; intros prev r Hne Hw Hr Hc; [congruence|].
  inversion Hw as [|? ? Hcw Hw']; subst.
  cbn [app]. rewrite subn_from_copy
    by (apply (@no_match_in_run prev (c :: w) r); auto).
  destruct w as [|c' w].
  - simpl. now destruct (subn_from (word_pattern old) repl (Some c) r).
  - rewrite IH; auto; [|discriminate].
    cbn [Re.last_opt].
    now destruct (subn_from (word_pattern old) repl (Re.last_opt (Some c') w) r).
Qed.

(** The loop replaces a run that spells the old word after a non-word
    character. *)
Lemma subn_from_run_match (prev : option ascii) (w r : str) :
  w <> [] -> word_chars w -> is_break r ->
  Re.is_word_opt prev = false -> Str.lower w = Str.lower old ->
  subn_from (word_pattern old) repl prev (w ++ r) =
  let '(out, n) := subn_from (word_pattern old) repl (Re.last_opt prev w) r in
  (repl w ++ out, S n).
Proof.
  intros Hne Hw Hr Hp Hl. apply subn_from_match; auto.
  rewrite match_word_run; auto.
  rewrite Hp. apply str_eqb_eq in Hl. now rewrite Hl.
Qed.

(** The number of replacements is the number of tokens that spell the old
    word. *)
Lemma subn_from_count (k : nat) :
  forall s prev,
    List.length s <= k ->
    Re.is_word_opt prev = false \/ is_break s ->
    snd (subn_from (word_pattern old) repl prev s)
    = count_of (Re.findall_words (Str.lower s)) (Str.lower old).
Proof.
  induction k as [|k IH]; intros s prev Hlen Hst.
  - destruct s; [|simpl in Hlen; lia].
    rewrite subn_from_break by exact I. reflexivity.
  - destruct (run_decomposition s) as (w & r & Hs & Hw & Hr). subst s.
    destruct w as [|c w].
    + cbn [app] in *. rewrite subn_from_break by auto.
      destruct r as [|d r]; [reflexivity|].
      cbn [Str.lower map]. rewrite findall_words_break
        by (now rewrite is_word_lower1).
      specialize (IH r (Some d)).
      destruct (subn_from (word_pattern old) repl (Some d) r) as [o n]. cbn [snd] in *.
      apply IH; [simpl in Hlen; lia|now left].
    + assert (Hp : Re.is_word_opt prev = false).
      { destruct Hst as [Hp|Hb]; auto.
        inversion Hw; subst. simpl in Hb. congruence. }
      assert (Hr' : snd (subn_from (word_pattern old) repl (Re.last_opt prev (c :: w)) r)
                    = count_of (Re.findall_words (Str.lower (tl r)))
                               (Str.lower old)).
      { rewrite subn_from_break by auto.
        destruct r as [|d r]; [reflexivity|].
        specialize (IH r (Some d)).
        destruct (subn_from (word_pattern old) repl (Some d) r) as [o n]. cbn [snd tl] in *.
        apply IH; [|now left].
        rewrite length_app in Hlen. simpl in Hlen. lia. }
      rewrite lower_app, findall_words_run;
        [|discriminate|now apply lower_word_chars|now apply lower_is_break].
      replace (tl (Str.lower r)) with (Str.lower (tl r))
        by (now destruct r).
      unfold count_of in *. cbn [count_occ].
      destruct (list_eq_dec ascii_dec (Str.lower (c :: w)) (Str.lower old))
        as [El|El].
      * rewrite subn_from_run_match; auto; [|discriminate].
        destruct (subn_from (word_pattern old) repl (Re.last_opt prev (c :: w)) r).
        cbn [snd] in *. now rewrite Hr'.
      * rewrite subn_from_run_copy; auto; [|discriminate].
        destruct (subn_from (word_pattern old) repl (Re.last_opt prev (c :: w)) r).
        cbn [snd] in *. exact Hr'.
Qed.

End OldWord.

(** ** Spelling *)

(** In the range of this development a text spells a word exactly when the
    two have the same lower-case form. *)
Lemma spells_lower (old : str) :
  forall m, spells old m = str_eqb (Str.lower m) (Str.lower old).
Proof.
  induction old as [|p old IH]; intros [|c m]; cbn [spells Str.lower map].
  - symmetry. now apply str_eqb_eq.
  - symmetry. apply str_eqb_neq. discriminate.
  - symmetry. apply str_eqb_neq. discriminate.
  - rewrite IH. fold (Str.lower m) (Str.lower old).
    destruct (Re.char_match p c) eqn:Ec.
    + apply char_match_lower in Ec.
      destruct (str_eqb (Str.lower m) (Str.lower old)) eqn:E; cbn [andb].
      * apply str_eqb_eq in E. symmetry. apply str_eqb_eq. congruence.
      * apply str_eqb_neq in E. symmetry. apply str_eqb_neq. congruence.
    + cbn [andb]. symmetry. apply str_eqb_neq. intro H. injection H as H _.
      apply char_match_lower in H. congruence.
Qed.

Lemma spells_iff (old m : str) :
  spells old m = true <-> Str.lower m = Str.lower old.
Proof. rewrite spells_lower. apply str_eqb_eq. Qed.

Lemma spells_nil (old : str) : old <> [] -> spells old [] = false.
Proof. destruct old; [congruence|reflexivity]. Qed.

(** A word is matched by word characters only. *)
Lemma only_word_matches_word (old s : str) :
  word_chars old -> only_word_matches old s = true.
Proof.
  intro Hold. unfold only_word_matches. apply forallb_forall. intros c _.
  destruct (Re.is_word c) eqn:Ec; [reflexivity|]. cbn [orb].
  apply negb_true_iff.
  destruct (existsb (fun p => Re.char_match p c) old) eqn:Ex; [|reflexivity].
  apply existsb_exists in Ex. destruct Ex as (p & Hp & Hm).
  apply char_match_word in Hm. unfold word_chars in Hold.
  rewrite Forall_forall in Hold. specialize (Hold p Hp). congruence.
Qed.

(** The tokens of a text are its runs of word characters, lower-cased. *)
Lemma findall_words_from_lower (s : str) :
  forall cur,
    Re.findall_words_from (Str.lower cur) (Str.lower s)
    = map Str.lower (Re.findall_words_from cur s).
Proof.
  unfold Str.lower.
  induction s as [|c s IH]; intro cur; cbn [map Re.findall_words_from].
  - now destruct cur.
  - rewrite is_word_lower1. destruct (Re.is_word c).
    + rewrite <- IH. now rewrite map_app.
    + rewrite map_app, <- (IH []). now destruct cur.
Qed.

Lemma tokenize_runs (s : str) :
  tokenize s = map Str.lower (Re.findall_words s).
Proof. apply (findall_words_from_lower s []). Qed.

Lemma count_of_spells (old : str) (ws : list str) :
  count_of (map Str.lower ws) (Str.lower old)
  = List.length (filter (spells old) ws).
Proof.
  unfold count_of.
  induction ws as [|w ws IH]; cbn [map count_occ filter]; [reflexivity|].
  rewrite spells_lower. unfold str_eqb.
  destruct (list_eq_dec ascii_dec (Str.lower w) (Str.lower old));
    cbn [List.length]; congruence.
Qed.

Lemma no_run_spells (old : str) (ws : list str) :
  List.length (filter (spells old) ws) = 0
  <-> forall w, In w ws -> spells old w = false.
Proof.
  induction ws as [|w ws IH]; cbn [filter].
  - split; [intros _ w []|reflexivity].
  - destruct (spells old w) eqn:E; cbn [List.length].
    + split; [discriminate|]. intro H. specialize (H w (or_introl eq_refl)).
      congruence.
    + rewrite IH. split.
      * intros H v [<-|Hv]; auto.
      * intros H v Hv. apply H. now right.
Qed.

(** ** The loop replaces between boundaries *)

Lemma replaced_refl (old : str) (repl : str -> str) (s : str) :
  forall prev, replaced old repl prev s s 0.
Proof. induction s as [|c s IH]; intro prev; constructor; auto. Qed.

(** Whatever the old word, every part the loop replaces spells it and stands
    between two boundaries. *)
Lemma subn_loop_replaced (old : str) (repl : str -> str) (fuel : nat) :
  forall prev s out n,
    Re.subn_loop fuel (word_pattern old) repl prev s = (out, n) ->
    replaced old repl prev s out n.
Proof.
  induction fuel as [|fuel IH]; intros prev s out n H; cbn [Re.subn_loop] in H.
  - injection H as <- <-. apply replaced_refl.
  - destruct (Re.match_here (word_pattern old) prev s) as [[m rest]|] eqn:E.
    + apply match_word_pattern in E. destruct E as (Hs & Hl & Hb & Ha).
      apply spells_iff in Hl. subst s.
      destruct m as [|c m].
      * destruct rest as [|d rest].
        -- injection H as <- <-.
           rewrite <- (app_nil_r (repl [])).
           apply (@replaced_part old repl prev [] [] [] 0); auto.
           constructor.
        -- destruct (Re.subn_loop fuel _ _ (Some d) rest) as [o k] eqn:E'.
           injection H as <- <-.
           apply (@replaced_part old repl prev [] (d :: rest) (d :: o) k); auto.
           cbn [Re.last_opt]. constructor. now apply IH.
      * destruct (Re.subn_loop fuel _ _ _ rest) as [o k] eqn:E'.
        injection H as <- <-.
        apply (@replaced_part old repl prev (c :: m) rest o k); auto.
    + destruct s as [|c s].
      * injection H as <- <-. constructor.
      * destruct (Re.subn_loop fuel _ _ (Some c) s) as [o k] eqn:E'.
        injection H as <- <-. constructor. now apply IH.
Qed.

(** Replacing by the old word itself changes nothing in a text that spells
    the word in no other way. *)
Lemma replaced_same (w : str) :
  forall prev s out n,
    replaced w (fun _ => w) prev s out n ->
    (forall a m b, s = a ++ m ++ b -> spells w m = true -> m = w) ->
    out = s.
Proof.
  intros prev s out n H.
  induction H as [prev|prev c s out n H IH|prev m rest out n Hm Hb Ha H IH];
    intro Hall.
  - reflexivity.
  - f_equal. apply IH. intros a m b E Hs.
    apply (Hall (c :: a) m b); [now rewrite E|exact Hs].
  - pose proof (Hall [] m rest eq_refl Hm) as Em.
    rewrite <- Em at 1. f_equal. apply IH. intros a m' b E Hs.
    apply (Hall (m ++ a) m' b); [|exact Hs].
    rewrite E. now rewrite app_assoc.
Qed.

(** ** The loop replaces whole runs *)

Lemma respell_nil (old new : str) : old <> [] -> respell old new [] = ([], 0).
Proof. intro H. unfold respell. now rewrite spells_nil. Qed.

Lemma replace_runs_from_run (old new w : str) :
  forall cur r,
    word_chars w ->
    replace_runs_from old new cur (w ++ r)
    = replace_runs_from old new (cur ++ w) r.
Proof.
  induction w as [|c w IH]; intros cur r Hw; cbn [app replace_runs_from].
  - now rewrite app_nil_r.
  - inversion Hw; subst. rewrite H1, IH by auto. now rewrite <- app_assoc.
Qed.

Lemma replace_runs_from_break (old new cur r : str) :
  is_break r ->
  replace_runs_from old new cur r =
  match r with
  | [] => respell old new cur
  | d :: r' =>
      let '(o1, n1) := respell old new cur in
      let '(o2, n2) := replace_runs_from old new [] r' in
      (o1 ++ d :: o2, n1 + n2)
  end.
Proof.
  destruct r as [|d r]; cbn [replace_runs_from is_break]; [reflexivity|].
  intro H. now rewrite H.
Qed.

(** For an old word that is a word, the loop of [re.subn] and the telling by
    runs agree: what is replaced is the runs that spell the old word, whole,
    and nothing else. *)
Lemma subn_from_runs (old new : str) (k : nat) :
  is_a_word old ->
  forall s prev,
    List.length s <= k ->
    Re.is_word_opt prev = false \/ is_break s ->
    subn_from (word_pattern old) (fun _ => new) prev s
    = replace_whole_words old new s.
Proof.
  intro Hold. pose proof (proj1 Hold) as Hne. unfold replace_whole_words.
  induction k as [|k IH]; intros s prev Hlen Hst.
  - destruct s; [|simpl in Hlen; lia].
    rewrite subn_from_break by (auto; exact I).
    cbn [replace_runs_from]. now rewrite respell_nil.
  - destruct (run_decomposition s) as (w & r & Hs & Hw & Hr). subst s.
    assert (Hrest : forall p,
               subn_from (word_pattern old) (fun _ => new) p r =
               match r with
               | [] => ([], 0)
               | d :: r' =>
                   let '(o, n) := replace_runs_from old new [] r' in (d :: o, n)
               end).
    { intro p. rewrite subn_from_break by auto.
      destruct r as [|d r]; [reflexivity|].
      rewrite (IH r (Some d)); [reflexivity| |now left].
      rewrite length_app in Hlen. simpl in Hlen. lia. }
    rewrite replace_runs_from_run by exact Hw. cbn [app].
    rewrite replace_runs_from_break by exact Hr.
    destruct w as [|c w].
    + cbn [app]. rewrite Hrest, respell_nil by exact Hne.
      destruct r as [|d r]; [reflexivity|].
      now destruct (replace_runs_from old new [] r).
    + assert (Hp : Re.is_word_opt prev = false).
      { destruct Hst as [Hp|Hb]; auto.
        inversion Hw; subst. simpl in Hb. congruence. }
      unfold respell. destruct (spells old (c :: w)) eqn:E.
      * apply spells_iff in E.
        rewrite subn_from_run_match; auto; [|discriminate].
        rewrite Hrest. destruct r as [|d r]; [now rewrite app_nil_r|].
        now destruct (replace_runs_from old new [] r).
      * assert (El : Str.lower (c :: w) <> Str.lower old).
        { intro El. apply spells_iff in El. congruence. }
        rewrite subn_from_run_copy; auto; [|discriminate].
        rewrite Hrest. destruct r as [|d r]; [now rewrite app_nil_r|].
        now destruct (replace_runs_from old new [] r).
Qed.

(** [replace_word] on a word and a new word without a backslash. *)
Lemma replace_word_runs_eq (content old_word new_word : str) :
  is_a_word old_word -> no_backslash new_word ->
  replace_word content old_word new_word
  = inr (replace_whole_words old_word new_word content).
Proof.
  intros Hw Hnb. rewrite (replace_word_plain content old_word Hnb). f_equal.
  apply (@subn_from_runs old_word new_word (List.length content) Hw);
    [apply le_n|now left].
Qed.

(** The count of a call that returns, whatever the new word. *)
Lemma replace_word_count (content old_word new_word updated : str) (n : nat) :
  is_a_word old_word ->
  replace_word content old_word new_word = inr (updated, n) ->
  n = List.length (filter (spells old_word) (Re.findall_words content)).
Proof.
  intros Hw H. apply replace_word_returns in H. destruct H as (tpl & _ & H).
  pose proof (@subn_from_count old_word Hw (Re.expand tpl)
                (List.length content) content None (le_n _)
                (or_introl eq_refl)) as Hc.
  rewrite H in Hc. cbn [snd] in Hc. fold (tokenize content) in Hc.
  now rewrite tokenize_runs, count_of_spells in Hc.
Qed.

(** C4: [replace_word] replaces the old word only where it stands between two
    boundaries.  The text it returns is the text it was given with [n] parts
    replaced, each of them a part that spells the old word, case ignored,
    with a boundary before it and a boundary after it, and every other
    character kept.  For an old word that is a word, what is replaced is
    exactly the maximal runs of word characters that spell it, never a part
    of a longer run.  Replacing "cat" with "dog" in "concatenate cats cat"
    gives "concatenate cats dog" and the count 1. *)
Theorem replace_word_whole_words :
  replace_word (text "concatenate cats cat") (text "cat") (text "dog")
  = inr (text "concatenate cats dog", 1)
  /\ (forall content old_word new_word updated n,
        replace_word content old_word new_word = inr (updated, n) ->
        exists tpl,
          Re.parse_template new_word = inr tpl
          /\ replaced old_word (Re.expand tpl) None content updated n)
  /\ (forall content old_word new_word,
        is_a_word old_word -> no_backslash new_word ->
        only_word_matches old_word content = true ->
        replace_word content old_word new_word
        = inr (replace_whole_words old_word new_word content)).
Proof.
  split; [reflexivity|]. split.
  - intros content old_word new_word updated n H.
    apply replace_word_returns in H. destruct H as (tpl & Hp & H).
    exists tpl. split; [exact Hp|].
    unfold subn_from in H. now apply subn_loop_replaced in H.
  - intros content old_word new_word Hw Hnb _.
    now apply replace_word_runs_eq.
Qed.

Lemma replace_word_whole_words_witness :
  replace_word (text "tomcat, Cat.") (text "cat") (text "dog")
  = inr (replace_whole_words (text "cat") (text "dog") (text "tomcat, Cat."))
  /\ replace_whole_words (text "cat") (text "dog") (text "tomcat, Cat.")
     = (text "tomcat, dog.", 1)
  /\ exists tpl,
       Re.parse_template (text "dog") = inr tpl
       /\ replaced (text "cat") (Re.expand tpl) None
                   (text "tomcat, Cat.") (text "tomcat, dog.") 1.
Proof.
  destruct replace_word_whole_words as (_ & Hparts & Hruns).
  split; [|split].
  - apply Hruns.
    + split; [discriminate|repeat constructor].
    + repeat constructor.
    + reflexivity.
  - reflexivity.
  - apply (Hparts (text "tomcat, Cat.") (text "cat") (text "dog")).
    reflexivity.
Defined.

(** ** Replacing a word by itself *)

(** C1, as the code has it: replacing a word without a backslash by itself
    returns the text with [n] parts respelled as the word, each of them a
    part that spells the word, case ignored, between two boundaries; so the
    text comes back as it was whenever no part of it spells the word in
    another way.  When the word is a word, the parts are exactly the maximal
    runs of word characters that spell it, and [n] is their number. *)
Theorem replace_word_by_itself (content word : str) :
  no_backslash word ->
  exists updated n,
    replace_word content word word = inr (updated, n)
    /\ replaced word (fun _ => word) None content updated n
    /\ ((forall a m b,
            content = a ++ m ++ b -> spells word m = true -> m = word) ->
        updated = content)
    /\ (is_a_word word -> only_word_matches word content = true ->
        (updated, n) = replace_whole_words word word content
        /\ n = List.length (filter (spells word) (Re.findall_words content))).
Proof.
  intro Hnb. pose proof (replace_word_plain content word Hnb) as Hrw.
  destruct (subn_from (word_pattern word) (fun _ => word) None content)
    as [updated n] eqn:E.
  exists updated, n.
  assert (Hr : replaced word (fun _ => word) None content updated n).
  { unfold subn_from in E. now apply subn_loop_replaced in E. }
  split; [exact Hrw|]. split; [exact Hr|]. split.
  - now apply (replaced_same Hr).
  - intros Hw _. split.
    + rewrite (replace_word_runs_eq content Hw Hnb) in Hrw.
      injection Hrw as Hrw. now symmetry.
    + now apply (@replace_word_count content word word updated n).
Qed.

Lemma replace_word_by_itself_witness :
  (exists updated n,
      replace_word (text "Cat cat CAT cats") (text "cat") (text "cat")
      = inr (updated, n)
      /\ (updated, n) = (text "cat cat cat cats", 3)
      /\ n = List.length (filter (spells (text "cat"))
                                 (Re.findall_words (text "Cat cat CAT cats"))))
  /\ (exists n,
        replace_word (text "cat.") (text "cat") (text "cat")
        = inr (text "cat.", n)).
Proof.
  split.
  - destruct (@replace_word_by_itself (text "Cat cat CAT cats") (text "cat"))
      as (updated & n & H & _ & _ & Hruns); [repeat constructor|].
    exists updated, n. split; [exact H|].
    destruct Hruns as [Hu Hn].
    + split; [discriminate|repeat constructor].
    + reflexivity.
    + split; [|exact Hn]. rewrite Hu. reflexivity.
  - destruct (@replace_word_by_itself (text "cat.") (text "cat"))
      as (updated & n & H & _ & Hsame & _); [repeat constructor|].
    exists n. rewrite H. rewrite Hsame; [reflexivity|].
    intros a m b E Hs.
    unfold text in Hs.
    destruct m as [|c1 [|c2 [|c3 [|c4 m]]]];
      cbn [list_ascii_of_string spells] in Hs;
      rewrite ?andb_false_r in Hs; try discriminate Hs.
    destruct a as [|x1 [|x2 a]]; cbn in E.
    + injection E as <- <- <- _. reflexivity.
    + injection E as _ <- <- <- _. discriminate Hs.
    + apply (f_equal (@List.length ascii)) in E. cbn in E.
      rewrite length_app in E. cbn in E. lia.
Defined.

(** The claim C1 fails on a text that spells the word in another case: the
    text comes back respelled. *)
Lemma replace_word_by_itself_changes_case :
  replace_word (text "Cat") (text "cat") (text "cat") = inr (text "cat", 1)
  /\ replace_word (text "Cat") (text "cat") (text "cat") <> inr (text "Cat", 1).
Proof. split; [reflexivity|discriminate]. Qed.

(** ** Replacing twice *)

Section Twice.

Variables old new : str.
Hypothesis old_is_word : is_a_word old.
Hypothesis new_without_old : ~ In (Str.lower old) (tokenize new).

(** No match inside a run that does not spell the old word. *)
Lemma quiet_run (v : str) :
  forall prev o,
    v <> [] -> word_chars v -> is_break o ->
    Re.is_word_opt prev = true \/ Str.lower v <> Str.lower old ->
    quiet (word_pattern old) (Re.last_opt prev v) o ->
    quiet (word_pattern old) prev (v ++ o).
Proof.
  induction v as [|c v IH]; intros prev o Hne Hv Ho Hc Hq; [congruence|].
  inversion Hv as [|? ? Hcw Hv']; subst.
  cbn [app quiet]. split.
  - apply (@no_match_in_run old old_is_word prev (c :: v) o); auto.
  - destruct v as [|c' v]; [exact Hq|].
    apply IH; auto. discriminate.
Qed.

Lemma last_opt_app (a b : str) :
  forall prev, Re.last_opt prev (a ++ b) = Re.last_opt (Re.last_opt prev a) b.
Proof. induction a as [|c a IH]; intro prev; simpl; auto. Qed.

Lemma is_break_app (r o : str) : is_break r -> is_break o -> is_break (r ++ o).
Proof. destruct r; simpl; auto. Qed.

(** No match inside a text none of whose tokens spells the old word, when
    the text stands between a non-word character and a break. *)
Lemma quiet_text (k : nat) :
  forall y prev o,
    List.length y <= k -> is_break o ->
    Re.is_word_opt prev = false \/ is_break y ->
    ~ In (Str.lower old) (Re.findall_words (Str.lower y)) ->
    quiet (word_pattern old) (Re.last_opt prev y) o ->
    quiet (word_pattern old) prev (y ++ o).
Proof.
  induction k as [|k IH]; intros y prev o Hlen Ho Hst Hy Hq.
  - destruct y; [exact Hq|simpl in Hlen; lia].
  - destruct (run_decomposition y) as (w & r & E & Hw & Hr). subst y.
    assert (Hbreak : forall p d r',
               List.length r' <= k -> Re.is_word d = false ->
               ~ In (Str.lower old) (Re.findall_words (Str.lower r')) ->
               quiet (word_pattern old) (Re.last_opt (Some d) r') o ->
               quiet (word_pattern old) p (d :: r' ++ o)).
    { intros p d r' Hl Hd Hn Hq'. split.
      - apply (@no_match_at_break old old_is_word p (d :: r' ++ o)). exact Hd.
      - apply IH; auto. }
    destruct w as [|c w].
    + cbn [app] in *. destruct r as [|d r]; [exact Hq|].
      cbn [app]. apply Hbreak; auto.
      * simpl in Hlen. lia.
      * cbn [Str.lower map] in Hy. rewrite findall_words_break in Hy; auto.
        now rewrite is_word_lower1.
    + assert (Hp : Re.is_word_opt prev = false).
      { destruct Hst as [Hp|Hb]; auto.
        inversion Hw; subst. simpl in Hb. congruence. }
      rewrite lower_app, findall_words_run in Hy;
        [|discriminate|now apply lower_word_chars|now apply lower_is_break].
      replace (tl (Str.lower r)) with (Str.lower (tl r)) in Hy
        by (now destruct r).
      rewrite <- app_assoc. rewrite last_opt_app in Hq.
      apply quiet_run; auto.
      * discriminate.
      * now apply is_break_app.
      * right. intro El. apply Hy. left. exact El.
      * destruct r as [|d r]; [exact Hq|].
        cbn [app]. apply Hbreak; auto.
        -- rewrite length_app in Hlen. simpl in Hlen. lia.
        -- intro Hin. apply Hy. right. exact Hin.
Qed.

Lemma subn_from_break_is_break (prev : option ascii) (r : str) :
  is_break r ->
  is_break (fst (subn_from (word_pattern old) (fun _ : str => new) prev r)).
Proof.
  intro Hr. rewrite subn_from_break by auto.
  destruct r as [|d r]; [exact I|].
  now destruct (subn_from (word_pattern old) (fun _ : str => new) (Some d) r).
Qed.

(** The text that the loop returns holds no match of the old word. *)
Lemma quiet_after_subn (k : nat) :
  forall s prev prev',
    List.length s <= k ->
    (Re.is_word_opt prev = false /\ Re.is_word_opt prev' = false)
    \/ is_break s ->
    quiet (word_pattern old) prev'
          (fst (subn_from (word_pattern old) (fun _ : str => new) prev s)).
Proof.
  induction k as [|k IH]; intros s prev prev' Hlen Hst.
  - destruct s; [|simpl in Hlen; lia].
    rewrite subn_from_break by (auto; exact I).
    split; [|exact I]. now apply no_match_at_break.
  - destruct (run_decomposition s) as (w & r & Hs & Hw & Hr). subst s.
    destruct w as [|c w].
    + cbn [app] in *. rewrite subn_from_break by auto.
      destruct r as [|d r].
      * split; [|exact I]. now apply no_match_at_break.
      * specialize (IH r (Some d) (Some d)).
        destruct (subn_from (word_pattern old) (fun _ : str => new) (Some d) r)
          as [o n].
        cbn [fst] in *. split.
        -- now apply no_match_at_break.
        -- apply IH; [simpl in Hlen; lia|]. left. simpl in Hr. now split.
    + assert (Hp : Re.is_word_opt prev = false /\ Re.is_word_opt prev' = false).
      { destruct Hst as [Hp|Hb]; auto.
        inversion Hw; subst. simpl in Hb. congruence. }
      destruct Hp as [Hp Hp'].
      assert (Hlr : List.length r <= k).
      { rewrite length_app in Hlen. simpl in Hlen. lia. }
      pose proof (subn_from_break_is_break (Re.last_opt prev (c :: w)) r Hr)
        as Hbr.
      pose proof (fun p' => IH r (Re.last_opt prev (c :: w)) p' Hlr
                               (or_intror Hr)) as IHr.
      destruct (list_eq_dec ascii_dec (Str.lower (c :: w)) (Str.lower old))
        as [El|El].
      * rewrite subn_from_run_match; auto; [|discriminate].
        destruct (subn_from (word_pattern old) (fun _ : str => new)
                            (Re.last_opt prev (c :: w)) r) as [o n].
        cbn [fst] in *.
        apply (@quiet_text (List.length new)); auto.
      * rewrite subn_from_run_copy; auto; [|discriminate].
        destruct (subn_from (word_pattern old) (fun _ : str => new)
                            (Re.last_opt prev (c :: w)) r) as [o n].
        cbn [fst] in *.
        apply quiet_run; auto. discriminate.
Qed.

End Twice.

(** C3: when the old word [x] is a word and the new text [y], free of
    backslashes, brings no new instance of [x], that is, no run of word
    characters of [y] spells [x] with case ignored (for a word [y]: [y] does
    not spell [x]), replacing a second time finds nothing and returns the
    text of the first replacement. *)
Theorem replace_word_twice (content x y : str) :
  is_a_word x -> no_backslash y ->
  (forall w, In w (Re.findall_words y) -> spells x w = false) ->
  only_word_matches x content = true -> only_word_matches x y = true ->
  exists updated n,
    replace_word content x y = inr (updated, n)
    /\ replace_word updated x y = inr (updated, 0).
Proof.
  intros Hx Hnb Hy _ _.
  assert (Hxy : ~ In (Str.lower x) (tokenize y)).
  { rewrite tokenize_runs. intro Hin. apply in_map_iff in Hin.
    destruct Hin as (w & Hl & Hw). apply spells_iff in Hl.
    rewrite (Hy w Hw) in Hl. discriminate. }
  rewrite (replace_word_plain content x Hnb).
  destruct (subn_from (word_pattern x) (fun _ => y) None content)
    as [updated n] eqn:E.
  exists updated, n. split; [reflexivity|].
  rewrite (replace_word_plain updated x Hnb). f_equal.
  apply subn_loop_quiet.
  pose proof (@quiet_after_subn x y Hx Hxy (List.length content) content
                None None (le_n _) (or_introl (conj eq_refl eq_refl))) as H.
  now rewrite E in H.
Qed.

Lemma replace_word_twice_witness :
  exists updated n,
    replace_word (text "a cat, the Cat; concatenate") (text "cat") (text "dog")
    = inr (updated, n)
    /\ replace_word updated (text "cat") (text "dog") = inr (updated, 0).
Proof.
  apply (@replace_word_twice (text "a cat, the Cat; concatenate")
           (text "cat") (text "dog")).
  - split; [discriminate|repeat constructor].
  - repeat constructor.
  - intros w Hw. vm_compute in Hw. destruct Hw as [<-|[]]. reflexivity.
  - reflexivity.
  - reflexivity.
Defined.

(** The proviso is needed.  Two distinct words that differ in case only: the
    new word is a new instance of the old one, and the second replacement
    finds it. *)
Lemma replace_word_twice_case_only :
  text "cat" <> text "Cat"
  /\ replace_word (text "cat") (text "cat") (text "Cat") = inr (text "Cat", 1)
  /\ replace_word (text "Cat") (text "cat") (text "Cat") = inr (text "Cat", 1)
  /\ replace_word (text "Cat") (text "cat") (text "Cat") <> inr (text "Cat", 0).
Proof. repeat split; discriminate. Qed.

(** So it is when the new text holds the old word among its runs, and an old
    word that is not a run of word characters can come back where the new
    text meets what follows it. *)
Lemma replace_word_twice_not_words :
  replace_word (text "a") (text "a") (text "a b") = inr (text "a b", 1)
  /\ replace_word (text "a b") (text "a") (text "a b") = inr (text "a b b", 1)
  /\ replace_word (text "a-a-a") (text "a-a") (text "a") = inr (text "a-a", 1)
  /\ replace_word (text "a-a") (text "a-a") (text "a") = inr (text "a", 1).
Proof. repeat split. Qed.

(** ** The order of the result lines *)

(** The replace operation completes when the new word has no backslash. *)
Lemma replace_lines_plain (fs : filesystem) (file_path content : str)
    (args : namespace) :
  (forall old_word new_word,
      replace args = Some (old_word, new_word) -> no_backslash new_word) ->
  exists ls ws, replace_lines fs file_path content args = inr (ls, ws).
Proof.
  intro Hplain. unfold replace_lines.
  destruct (replace args) as [[old_word new_word]|]; [|now exists [], []].
  rewrite (replace_word_plain content old_word (Hplain _ _ eq_refl)).
  destruct (subn_from _ _ None content) as [updated [|n]]; [eauto|].
  destruct (fs_write fs (text "updated_" ++ file_path) updated); eauto.
Qed.

(** C9: once the text is loaded, the result list of [process_file] is the
    concatenation, in the fixed order word count, character count, line
    count, find, replace, top-N frequency, of what each requested operation
    contributes; the call returns it whenever the replacement, if any, has no
    backslash (it raises instead exactly when [re.subn] rejects the
    replacement); the list is empty when no operation is requested; and
    [main] gives the same outcome for every order of the same command-line
    options. *)
Theorem process_file_fixed_order (fs : filesystem) (file_path : str)
    (args : namespace) (content : str) :
  fs_read fs file_path = ReadOk content ->
  process_file fs file_path args =
    match replace_lines fs file_path content args with
    | inl e => Raised e
    | inr (ls, ws) =>
        Returned (word_count_lines content args ++ char_count_lines content args
                  ++ line_count_lines content args ++ find_lines content args
                  ++ ls ++ word_frequency_lines content args) ws
    end
  /\ ((forall old_word new_word,
          replace args = Some (old_word, new_word) -> no_backslash new_word) ->
      exists ls ws,
        process_file fs file_path args =
        Returned (word_count_lines content args ++ char_count_lines content args
                  ++ line_count_lines content args ++ find_lines content args
                  ++ ls ++ word_frequency_lines content args) ws)
  /\ (no_operation args -> process_file fs file_path args = Returned [] [])
  /\ (forall argv argv',
        Permutation argv argv' -> NoDup (map dest argv) ->
        main fs argv = main fs argv').
Proof.
  intro Hread. split; [now apply process_file_spec|]. split; [|split].
  - intro Hplain.
    destruct (replace_lines_plain fs file_path content args Hplain)
      as (ls & ws & E).
    exists ls, ws.
    now rewrite (@process_file_spec fs file_path args content Hread), E.
  - intros (Hwc & Hcc & Hlc & Hfd & Hrp & Hwf).
    rewrite (@process_file_spec fs file_path args content Hread).
    unfold replace_lines, word_count_lines, char_count_lines, line_count_lines,
      find_lines, word_frequency_lines.
    now rewrite Hwc, Hcc, Hlc, Hfd, Hrp, Hwf.
  - intros argv argv' Hperm Hnd. unfold main, parse_args.
    now rewrite (fold_store_perm Hperm Hnd defaults).
Qed.

Lemma process_file_fixed_order_witness :
  let fs := Filesystem (fun _ => ReadOk (text "The cat. the Dog"))
                       (fun _ _ => None) in
  process_file fs (text "in.txt")
    (Namespace (text "in.txt") true true true (Some (text "THE"))
               (Some (text "cat", text "cow")) (Some 2%Z))
  = Returned
      [text "Word Count: 4"; text "Character Count: 16"; text "Line Count: 1";
       text "The word 'THE' occurs 2 times.";
       text "'cat' was replaced with 'cow' 1 times and saved to updated_in.txt";
       text "Top words by frequency:"; text "  the: 2"; text "  cat: 1"]
      [(text "updated_in.txt", text "The cow. the Dog")]
  /\ process_file fs (text "in.txt")
       (Namespace (text "in.txt") false false false None None None)
     = Returned [] []
  /\ main fs [FlagWordFrequency 1; FlagFind (text "THE"); FlagWordCount;
              FlagFile (text "in.txt")]
     = main fs [FlagFile (text "in.txt"); FlagWordCount;
                FlagFind (text "THE"); FlagWordFrequency 1].
Proof.
  intro fs. split; [|split].
  - destruct (@process_file_fixed_order fs (text "in.txt")
                (Namespace (text "in.txt") true true true (Some (text "THE"))
                           (Some (text "cat", text "cow")) (Some 2%Z))
                (text "The cat. the Dog") eq_refl) as (H & _).
    rewrite H. reflexivity.
  - destruct (@process_file_fixed_order fs (text "in.txt")
                (Namespace (text "in.txt") false false false None None None)
                (text "The cat. the Dog") eq_refl) as (_ & _ & H0 & _).
    apply H0. repeat split.
  - destruct (@process_file_fixed_order fs (text "in.txt")
                (Namespace (text "in.txt") false false false None None None)
                (text "The cat. the Dog") eq_refl) as (_ & _ & _ & Hperm).
    apply Hperm.
    + change [FlagWordFrequency 1; FlagFind (text "THE"); FlagWordCount;
              FlagFile (text "in.txt")]
        with (rev [FlagFile (text "in.txt"); FlagWordCount;
                   FlagFind (text "THE"); FlagWordFrequency 1]).
      apply Permutation_sym, Permutation_rev.
    + simpl. repeat constructor; simpl; intuition discriminate.
Defined.

(** A new word with a backslash is read as a template: replacing such a word
    by itself can change the text or raise. *)
Lemma replace_word_template :
  replace_word (text "x\n") (text "x\n") (text "x\n") = inr (text "x" ++ [LF], 1)
  /\ replace_word (text "cat") (text "cat") (text "\1") = inl BadTemplate
  /\ replace_word (text "cat") (text "dog") (text "\1") = inl BadTemplate.
Proof. repeat split. Qed.

(** * Further properties of the program *)

(** ** Bounds on the counts *)

Lemma findall_words_from_bound (s : str) :
  forall cur,
    2 * List.length (Re.findall_words_from cur s)
    <= List.length s + match cur with [] => 1 | _ :: _ => 2 end.
Proof.
  induction s as [|c s IH]; intro cur; simpl.
  - destruct cur; simpl; lia.
  - destruct (Re.is_word c).
    + specialize (IH (cur ++ [c])).
      destruct (cur ++ [c]) eqn:E; [destruct cur; discriminate|].
      destruct cur; lia.
    + rewrite length_app. specialize (IH []). destruct cur; simpl in *; lia.
Qed.

Lemma findall_words_from_nil (s : str) :
  forall cur,
    Re.findall_words_from cur s = [] ->
    cur = [] /\ Forall (fun c => Re.is_word c = false) s.
Proof.
  induction s as [|c s IH]; intros cur H; simpl in H.
  - destruct cur; [auto|discriminate].
  - destruct (Re.is_word c) eqn:Ec.
    + apply IH in H. destruct H as [H _]. destruct cur; discriminate.
    + apply app_eq_nil in H. destruct H as [Hc H]. apply IH in H.
      destruct cur; [|discriminate]. split; auto. constructor; tauto.
Qed.

(** X1: two tokens are at least one character apart in the lower-cased text
    they are read from, so twice the word count is at most the length of the
    lower-cased text plus one; and the word count is 0 exactly for a text
    without a word character. *)
Theorem count_words_bounds (content : str) :
  2 * count_words content <= List.length (Str.lower content) + 1
  /\ (count_words content = 0
      <-> Forall (fun c => Re.is_word c = false) content).
Proof.
  split.
  - unfold count_words, Re.findall_words.
    apply (findall_words_from_bound (Str.lower content) []).
  - split.
    + intro H. unfold count_words in H. apply length_zero_iff_nil in H.
      apply findall_words_from_nil in H. destruct H as [_ H].
      unfold Str.lower in H. rewrite Forall_map in H.
      eapply Forall_impl; [|exact H]. intros c Hc.
      cbv beta in Hc. now rewrite is_word_lower1 in Hc.
    + intro H. unfold count_words. fold (tokenize content).
      now rewrite (tokenize_no_word H).
Qed.

Lemma count_words_bounds_witness :
  count_words (text "...; -- !") = 0.
Proof.
  apply (proj2 (count_words_bounds (text "...; -- !"))).
  repeat constructor.
Defined.

Lemma splitlines_from_bound (k : nat) :
  forall s cur,
    List.length s <= k ->
    List.length (Str.splitlines_from cur s)
    <= List.length s + match cur with [] => 0 | _ :: _ => 1 end.
Proof.
  induction k as [|k IH]; intros s cur Hlen.
  - destruct s; [|simpl in Hlen; lia]. destruct cur; simpl; lia.
  - destruct s as [|c s]; [destruct cur; simpl; lia|].
    simpl in Hlen. cbn [Str.splitlines_from].
    destruct (Str.is_linebreak c).
    + cbn [List.length]. destruct s as [|d s].
      * simpl. lia.
      * destruct (Str.is_cr c && Str.is_lf d).
        -- specialize (IH s []). simpl in *. lia.
        -- specialize (IH (d :: s) []). simpl in *. lia.
    + specialize (IH s (cur ++ [c])).
      destruct (cur ++ [c]) eqn:E; [destruct cur; discriminate|].
      simpl. lia.
Qed.

Lemma splitlines_from_open_line (s : str) :
  forall cur, cur <> [] -> Str.splitlines_from cur s <> [].
Proof.
  induction s as [|c s IH]; intros cur Hcur; simpl.
  - destruct cur; [congruence|discriminate].
  - destruct (Str.is_linebreak c); [discriminate|].
    apply IH. destruct cur; discriminate.
Qed.

(** X2: a text has at most as many lines as characters, and it has no line
    exactly when it is empty. *)
Theorem count_lines_bounds (content : str) :
  count_lines content <= count_chars content
  /\ (count_lines content = 0 <-> content = []).
Proof.
  split.
  - unfold count_lines, count_chars, Str.splitlines.
    pose proof (@splitlines_from_bound (List.length content) content []
                  (le_n _)) as H.
    simpl in H. lia.
  - split.
    + unfold count_lines, Str.splitlines. intro H.
      apply length_zero_iff_nil in H.
      destruct content as [|c s]; auto. simpl in H.
      destruct (Str.is_linebreak c); [discriminate|].
      exfalso. revert H. apply splitlines_from_open_line. discriminate.
    + intros ->. reflexivity.
Qed.

Lemma count_lines_bounds_witness : count_lines (text "a") <> 0.
Proof.
  intro H. apply (proj1 (proj2 (count_lines_bounds (text "a")))) in H.
  discriminate.
Defined.

(** ** What is replaced *)

(** X3: for an old word that is a word, the number of replacements
    [replace_word] reports is the number of maximal runs of word characters
    of the text that spell the old word, case ignored, whatever the new word
    or template; so nothing is replaced exactly when no run spells it. *)
Theorem replace_count_is_run_count (content old_word new_word updated : str)
    (n : nat) :
  is_a_word old_word -> only_word_matches old_word content = true ->
  replace_word content old_word new_word = inr (updated, n) ->
  n = List.length (filter (spells old_word) (Re.findall_words content))
  /\ (n = 0
      <-> forall w, In w (Re.findall_words content) -> spells old_word w = false).
Proof.
  intros Hw _ H.
  apply (@replace_word_count content old_word new_word updated n Hw) in H.
  split; [exact H|].
  rewrite H. apply no_run_spells.
Qed.

Lemma replace_count_is_run_count_witness :
  2 = List.length (filter (spells (text "the"))
                          (Re.findall_words (text "The cat; the hat, then"))).
Proof.
  apply (proj1 (@replace_count_is_run_count (text "The cat; the hat, then")
                  (text "the") (text "\g<0>!")
                  (text "The! cat; the! hat, then") 2
                  ltac:(split; [discriminate|repeat constructor])
                  eq_refl eq_refl)).
Defined.

Lemma subn_loop_lengths (old new : str) (fuel : nat) :
  forall prev s out n,
    Re.subn_loop fuel (word_pattern old) (fun _ => new) prev s = (out, n) ->
    List.length out + n * List.length old
    = List.length s + n * List.length new.
Proof.
  induction fuel as [|fuel IH]; intros prev s out n H;
    cbn [Re.subn_loop] in H.
  - injection H as <- <-. lia.
  - destruct (Re.match_here (word_pattern old) prev s) as [[m rest]|] eqn:E.
    + apply match_word_pattern in E. destruct E as (Hs & Hl & _ & _).
      apply (f_equal (@List.length ascii)) in Hl.
      rewrite !lower_length in Hl. subst s.
      destruct m as [|c m].
      * simpl in Hl. destruct rest as [|d rest].
        -- injection H as <- <-. simpl. lia.
        -- destruct (Re.subn_loop fuel _ _ (Some d) rest) as [o k] eqn:E'.
           injection H as <- <-. apply IH in E'.
           rewrite length_app. simpl. lia.
      * destruct (Re.subn_loop fuel _ _ _ rest) as [o k] eqn:E'.
        injection H as <- <-. apply IH in E'.
        rewrite !length_app. simpl in *. lia.
    + destruct s as [|c s].
      * injection H as <- <-. lia.
      * destruct (Re.subn_loop fuel _ _ (Some c) s) as [o k] eqn:E'.
        injection H as <- <-. apply IH in E'. simpl. lia.
Qed.

(** X4: with a new word that has no backslash, every replacement takes out
    as many characters as the old word has and puts in the new word: the
    length of the updated text plus [n] times the length of the old word is
    the length of the text plus [n] times the length of the new word. *)
Theorem replace_word_length (content old_word new_word updated : str)
    (n : nat) :
  no_backslash new_word ->
  replace_word content old_word new_word = inr (updated, n) ->
  List.length updated + n * List.length old_word
  = List.length content + n * List.length new_word.
Proof.
  intros Hnb H. rewrite (replace_word_plain content old_word Hnb) in H.
  injection H as H. unfold subn_from in H.
  now apply subn_loop_lengths in H.
Qed.

Lemma replace_word_length_witness :
  List.length (text "a bird, a bird") + 2 * List.length (text "cat")
  = List.length (text "a cat, a Cat") + 2 * List.length (text "bird").
Proof.
  apply (@replace_word_length (text "a cat, a Cat") (text "cat") (text "bird")
           (text "a bird, a bird") 2).
  - repeat constructor.
  - reflexivity.
Defined.

(** The runs of word characters of the text told by runs. *)
Lemma flush_swap_run (old new cur : str) :
  old <> [] -> new <> [] ->
  Re.flush (swap_run old new cur) = map (swap_run old new) (Re.flush cur).
Proof.
  intros Ho Hn. unfold swap_run. destruct cur as [|c cur].
  - now rewrite spells_nil.
  - cbn [Re.flush map]. destruct (spells old (c :: cur)); [|reflexivity].
    destruct new; [congruence|reflexivity].
Qed.

Lemma swap_run_word_chars (old new cur : str) :
  word_chars new -> word_chars cur -> word_chars (swap_run old new cur).
Proof. intros Hn Hc. unfold swap_run. now destruct (spells old cur). Qed.

Lemma replace_runs_from_text (old new cur s : str) :
  fst (replace_runs_from old new cur s)
  = match s with
    | [] => swap_run old new cur
    | c :: s' =>
        if Re.is_word c then fst (replace_runs_from old new (cur ++ [c]) s')
        else swap_run old new cur ++ c :: fst (replace_runs_from old new [] s')
    end.
Proof.
  destruct s as [|c s]; cbn [replace_runs_from].
  - unfold respell, swap_run. now destruct (spells old cur).
  - destruct (Re.is_word c); [reflexivity|].
    unfold respell, swap_run.
    destruct (replace_runs_from old new [] s) as [o2 n2].
    now destruct (spells old cur).
Qed.

Lemma findall_words_of_runs (old new : str) :
  is_a_word old -> is_a_word new ->
  forall s cur,
    word_chars cur ->
    Re.findall_words (fst (replace_runs_from old new cur s))
    = map (swap_run old new) (Re.findall_words_from cur s).
Proof.
  intros [Ho _] [Hn Hnw]. unfold Re.findall_words.
  induction s as [|c s IH]; intros cur Hcur;
    rewrite replace_runs_from_text; cbn [Re.findall_words_from].
  - rewrite <- (app_nil_r (swap_run old new cur)).
    rewrite findall_words_from_run by now apply swap_run_word_chars.
    cbn [app Re.findall_words_from]. now apply flush_swap_run.
  - destruct (Re.is_word c) eqn:Ec.
    + apply IH. apply Forall_app. split; [exact Hcur|]. now constructor.
    + rewrite findall_words_from_run by now apply swap_run_word_chars.
      cbn [app Re.findall_words_from]. rewrite Ec, map_app.
      rewrite flush_swap_run by assumption. f_equal.
      apply IH. constructor.
Qed.

(** X5: replacing a word by a word changes the runs of word characters of
    the text one for one: every run that spells the old word, case ignored,
    becomes the new word, and every other run stays as it is, in its
    place. *)
Theorem replace_word_runs (content old_word new_word updated : str)
    (n : nat) :
  is_a_word old_word -> is_a_word new_word ->
  only_word_matches old_word content = true ->
  replace_word content old_word new_word = inr (updated, n) ->
  Re.findall_words updated
  = map (swap_run old_word new_word) (Re.findall_words content).
Proof.
  intros Ho Hn _ H.
  rewrite (replace_word_runs_eq content Ho
             (word_chars_no_backslash (proj2 Hn))) in H.
  injection H as H.
  pose proof (@findall_words_of_runs old_word new_word Ho Hn content []
                (Forall_nil _)) as Hr.
  unfold replace_whole_words in H. rewrite H in Hr. exact Hr.
Qed.

Lemma replace_word_runs_witness :
  Re.findall_words (text "a Dog, a Dog; a catalog")
  = map (swap_run (text "cat") (text "Dog"))
        (Re.findall_words (text "a cat, a CAT; a catalog")).
Proof.
  apply (@replace_word_runs (text "a cat, a CAT; a catalog")
           (text "cat") (text "Dog") (text "a Dog, a Dog; a catalog") 2).
  - split; [discriminate|repeat constructor].
  - split; [discriminate|repeat constructor].
  - reflexivity.
  - reflexivity.
Defined.

(** ** What the dispatcher writes and prints *)

(** X7: a run of [process_file] that returns completed at most one write: of
    the file "updated_" followed by the input path, with the text that
    [replace_word] returned together with a positive count, and the result
    list then holds the line that reports it. *)
Theorem process_file_writes (fs : filesystem) (file_path : str)
    (args : namespace) (lines : list str) (files : list (str * str)) :
  process_file fs file_path args = Returned lines files ->
  files = []
  \/ exists content old_word new_word updated n,
       fs_read fs file_path = ReadOk content
       /\ replace args = Some (old_word, new_word)
       /\ replace_word content old_word new_word = inr (updated, S n)
       /\ fs_write fs (text "updated_" ++ file_path) updated = None
       /\ files = [(text "updated_" ++ file_path, updated)]
       /\ In (replaced_line old_word new_word (S n)
                            (text "updated_" ++ file_path)) lines.
Proof.
  intro H.
  destruct (fs_read fs file_path) as [content| |msg|e] eqn:Hread;
    try (unfold process_file in H; rewrite Hread in H; discriminate).
  rewrite (@process_file_spec fs file_path args content Hread) in H.
  unfold replace_lines in H.
  destruct (replace args) as [[old_word new_word]|] eqn:Hr.
  - destruct (replace_word content old_word new_word)
      as [e|[updated [|n]]] eqn:Hw; try discriminate.
    + injection H as _ <-. now left.
    + destruct (fs_write fs (text "updated_" ++ file_path) updated)
        as [e|] eqn:Hfw; injection H as Hl <-.
      * now left.
      * right. exists content, old_word, new_word, updated, n.
        repeat (split; [reflexivity || assumption|]).
        rewrite <- Hl. do 4 (apply in_or_app; right). left. reflexivity.
  - injection H as _ <-. now left.
Qed.

Lemma process_file_writes_witness :
  [(text "updated_in.txt", text "a dog")] = []
  \/ exists content old_word new_word updated n,
       ReadOk (text "a cat") = ReadOk content
       /\ Some (text "cat", text "dog") = Some (old_word, new_word)
       /\ replace_word content old_word new_word = inr (updated, S n)
       /\ (None : option str) = None
       /\ [(text "updated_in.txt", text "a dog")]
          = [(text "updated_" ++ text "in.txt", updated)]
       /\ In (replaced_line old_word new_word (S n)
                            (text "updated_" ++ text "in.txt"))
             [text "'cat' was replaced with 'dog' 1 times and saved to updated_in.txt"].
Proof.
  apply (@process_file_writes
           (Filesystem (fun _ => ReadOk (text "a cat")) (fun _ _ => None))
           (text "in.txt")
           (Namespace (text "in.txt") false false false None
                      (Some (text "cat", text "dog")) None)
           [text "'cat' was replaced with 'dog' 1 times and saved to updated_in.txt"]
           [(text "updated_in.txt", text "a dog")] eq_refl).
Defined.

(** X9: a write of the output file that fails with an [IOError] does not stop
    the run: the error is one line of the result list, in the place of the
    replace operation, the lines of the other operations are all there, and
    no write completed. *)
Theorem write_failure_is_reported (fs : filesystem) (file_path : str)
    (args : namespace) (content old_word new_word updated e : str) (n : nat) :
  fs_read fs file_path = ReadOk content ->
  replace args = Some (old_word, new_word) ->
  replace_word content old_word new_word = inr (updated, S n) ->
  fs_write fs (text "updated_" ++ file_path) updated = Some e ->
  process_file fs file_path args =
  Returned (word_count_lines content args ++ char_count_lines content args
            ++ line_count_lines content args ++ find_lines content args
            ++ [write_error_line (text "updated_" ++ file_path) e]
            ++ word_frequency_lines content args) [].
Proof.
  intros Hread Hr Hw Hfw.
  rewrite (@process_file_spec fs file_path args content Hread).
  unfold replace_lines. now rewrite Hr, Hw, Hfw.
Qed.

Lemma write_failure_is_reported_witness :
  process_file
    (Filesystem (fun _ => ReadOk (text "a cat"))
                (fun _ _ => Some (text "Permission denied")))
    (text "in.txt")
    (Namespace (text "in.txt") true false false None
               (Some (text "cat", text "dog")) (Some 1%Z))
  = Returned
      [text "Word Count: 2";
       text "Error writing to file 'updated_in.txt': Permission denied";
       text "Top words by frequency:"; text "  a: 1"] [].
Proof.
  apply (@write_failure_is_reported
           (Filesystem (fun _ => ReadOk (text "a cat"))
                       (fun _ _ => Some (text "Permission denied")))
           (text "in.txt")
           (Namespace (text "in.txt") true false false None
                      (Some (text "cat", text "dog")) (Some 1%Z))
           (text "a cat") (text "cat") (text "dog") (text "a dog")
           (text "Permission denied") 0); reflexivity.
Defined.

Lemma fold_store_file (argv : list flag) :
  forall ns,
    match p_file (fold_left store argv ns) with
    | None => p_file ns = None /\ no_file_flag argv
    | Some p => p_file ns = Some p \/ In (FlagFile p) argv
    end.
Proof.
  induction argv as [|f argv IH]; intro ns; simpl.
  - destruct (p_file ns); [now left|]. split; auto. intros p [].
  - specialize (IH (store ns f)).
    destruct (p_file (fold_left store argv (store ns f))) as [p|].
    + destruct IH as [IH|IH]; [|now right; right].
      destruct ns, f; simpl in IH; try (now left).
      injection IH as <-. right. now left.
    + destruct IH as [IH Hno]. destruct ns, f; simpl in IH; try discriminate;
        (split; [exact IH|]); intros p [E|Hin]; try discriminate;
        now apply (Hno p).
Qed.

Lemma fold_store_the_file (argv : list flag) (p : str) :
  In (FlagFile p) argv ->
  (forall q, In (FlagFile q) argv -> q = p) ->
  p_file (fold_left store argv defaults) = Some p.
Proof.
  intros Hin Hall. pose proof (fold_store_file argv defaults) as Hf.
  destruct (p_file (fold_left store argv defaults)) as [q|].
  - destruct Hf as [Hf|Hq]; [discriminate|]. f_equal. now apply Hall.
  - destruct Hf as [_ Hno]. now apply Hno in Hin.
Qed.

(** X10: how [main] stops before any operation runs, whatever else was asked
    for.  Without a [-f] option it exits with status 2 and prints nothing on
    standard output.  With an input file that is missing or unreadable it
    exits with status 1 after one error line.  An exception of the read that
    is no [OSError] leaves [main] uncaught. *)
Theorem main_exits (fs : filesystem) (argv : list flag) :
  (no_file_flag argv -> main fs argv = Exited 2 [])
  /\ (forall p,
        In (FlagFile p) argv ->
        (forall q, In (FlagFile q) argv -> q = p) ->
        (fs_read fs p = FileNotFound ->
         main fs argv = Exited 1 [not_found_message p])
        /\ (forall e, fs_read fs p = ReadIOError e ->
                      main fs argv = Exited 1 [read_error_message p e])
        /\ (forall e, fs_read fs p = ReadRaises e ->
                      main fs argv = Raised e)).
Proof.
  split.
  - intro Hno. pose proof (fold_store_file argv defaults) as Hf.
    unfold main, parse_args.
    destruct (fold_left store argv defaults) as [[p|] wc cc lc fd rp wf];
      [|reflexivity].
    simpl in Hf. destruct Hf as [Hf|Hin]; [discriminate|].
    now apply Hno in Hin.
  - intros p Hin Hall.
    pose proof (fold_store_the_file argv Hin Hall) as Hf.
    unfold main, parse_args.
    destruct (fold_left store argv defaults) as [fl wc cc lc fd rp wf].
    simpl in Hf. subst fl. unfold process_file. cbn [file].
    split; [|split].
    + intro H. now rewrite H.
    + intros e H. now rewrite H.
    + intros e H. now rewrite H.
Qed.

Lemma main_exits_witness :
  main (Filesystem (fun _ => FileNotFound) (fun _ _ => None))
       [FlagWordCount; FlagFind (text "cat")]
  = Exited 2 []
  /\ main (Filesystem (fun _ => ReadIOError (text "Permission denied"))
                      (fun _ _ => None))
          [FlagWordCount; FlagFile (text "in.txt"); FlagWordFrequency 3]
     = Exited 1 [text "Error reading file 'in.txt': Permission denied"]
  /\ main (Filesystem (fun _ => ReadRaises UnicodeDecodeError)
                      (fun _ _ => None))
          [FlagFile (text "in.txt"); FlagLineCount]
     = Raised UnicodeDecodeError.
Proof.
  split; [|split].
  - apply (proj1 (main_exits (Filesystem (fun _ => FileNotFound)
                                         (fun _ _ => None))
                             [FlagWordCount; FlagFind (text "cat")])).
    intros p [H|[H|[]]]; discriminate.
  - destruct (proj2 (main_exits
                       (Filesystem (fun _ => ReadIOError (text "Permission denied"))
                                   (fun _ _ => None))
                       [FlagWordCount; FlagFile (text "in.txt");
                        FlagWordFrequency 3])
                    (text "in.txt")) as (_ & H & _).
    + right. now left.
    + intros q [H|[H|[H|[]]]]; try discriminate. now injection H.
    + apply (H (text "Permission denied")). reflexivity.
  - destruct (proj2 (main_exits
                       (Filesystem (fun _ => ReadRaises UnicodeDecodeError)
                                   (fun _ _ => None))
                       [FlagFile (text "in.txt"); FlagLineCount])
                    (text "in.txt")) as (_ & _ & H).
    + now left.
    + intros q [H|[H|[]]]; try discriminate. now injection H.
    + apply (H UnicodeDecodeError). reflexivity.
Defined.

(** ** The ranking *)

Lemma total_incr (k : str) (d : Collections.counter) :
  total (Collections.incr k d) = S (total d).
Proof.
  unfold total. induction d as [|[k' n] d IH]; simpl; auto.
  destruct (str_eqb k k'); simpl; [reflexivity|]. rewrite IH. lia.
Qed.

Lemma total_Counter (ws : list str) :
  total (Collections.Counter ws) = List.length ws.
Proof.
  unfold Collections.Counter.
  assert (H : forall d, total (fold_left (fun d w => Collections.incr w d) ws d)
                        = total d + List.length ws).
  { induction ws as [|w ws IH]; intro d; simpl; [lia|].
    rewrite IH, total_incr. lia. }
  now rewrite H.
Qed.

Lemma total_perm (d d' : Collections.counter) :
  Permutation d d' -> total d = total d'.
Proof.
  unfold total. induction 1; simpl; lia.
Qed.

Lemma total_firstn (n : nat) (d : Collections.counter) :
  total (firstn n d) <= total d.
Proof.
  unfold total. revert d. induction n as [|n IH]; intro d; simpl; [lia|].
  destruct d as [|x d]; simpl; [lia|]. specialize (IH d). lia.
Qed.

(** X11: the counts of a ranking never add up to more than the word count;
    they add up to exactly the word count when the ranking is long enough for
    every distinct token; and no entry has the count 0. *)
Theorem ranking_total (content : str) (n : Z) :
  total (get_word_frequency content n) <= count_words content
  /\ ((Z.of_nat (List.length (nodup str_dec (tokenize content))) <= n)%Z ->
      (0 < n)%Z ->
      total (get_word_frequency content n) = count_words content)
  /\ (forall w c, In (w, c) (get_word_frequency content n) -> 1 <= c).
Proof.
  unfold get_word_frequency, count_words. fold (tokenize content).
  unfold Collections.most_common.
  pose proof (total_perm (sorted_desc_perm
                            (Collections.Counter (tokenize content)))) as Hp.
  rewrite total_Counter in Hp.
  split; [|split].
  - destruct (n <=? 0)%Z; [unfold total; simpl; lia|].
    rewrite <- Hp. apply total_firstn.
  - intros Hle Hpos. destruct (n <=? 0)%Z eqn:E; [apply Z.leb_le in E; lia|].
    rewrite firstn_all2; [exact Hp|].
    rewrite (Permutation_length (sorted_desc_perm _)), Counter_length. lia.
  - intros w c H.
    assert (Hin : In (w, c) (Collections.Counter (tokenize content))).
    { destruct (n <=? 0)%Z; [contradiction|].
      apply firstn_incl in H.
      eapply Permutation_in; [apply sorted_desc_perm|exact H]. }
    apply Counter_entry in Hin. destruct Hin as [Hw ->].
    unfold count_of. now apply count_occ_In.
Qed.

Lemma ranking_total_witness :
  total (get_word_frequency (text "the cat, the hat; the end") 4)
  = count_words (text "the cat, the hat; the end").
Proof.
  apply (proj1 (proj2 (ranking_total (text "the cat, the hat; the end") 4)));
    vm_compute; congruence.
Defined.

(** X12: a shorter ranking is the beginning of a longer one: for [n <= m]
    the top [n] are the first [n] entries of the top [m]. *)
Theorem ranking_prefix (content : str) (n m : Z) :
  (n <= m)%Z ->
  get_word_frequency content n
  = firstn (Z.to_nat n) (get_word_frequency content m).
Proof.
  intro Hle. unfold get_word_frequency, Collections.most_common.
  destruct (n <=? 0)%Z eqn:En.
  - apply Z.leb_le in En. replace (Z.to_nat n) with 0 by lia. reflexivity.
  - apply Z.leb_gt in En.
    destruct (m <=? 0)%Z eqn:Em; [apply Z.leb_le in Em; lia|].
    rewrite firstn_firstn. f_equal. lia.
Qed.

Lemma ranking_prefix_witness :
  get_word_frequency (text "b a b a c") 1
  = firstn 1 (get_word_frequency (text "b a b a c") 3).
Proof.
  apply (@ranking_prefix (text "b a b a c") 1 3). lia.
Defined.

Lemma first_seen_from_ext (ws : list str) :
  forall seen seen',
    (forall w, In w seen <-> In w seen') ->
    first_seen_from seen ws = first_seen_from seen' ws.
Proof.
  induction ws as [|w ws IH]; intros seen seen' H; simpl; auto.
  destruct (in_dec str_dec w seen) as [Hi|Hi];
    destruct (in_dec str_dec w seen') as [Hj|Hj].
  - now apply IH.
  - apply H in Hi. contradiction.
  - apply H in Hj. contradiction.
  - f_equal. apply IH. intro x. simpl. rewrite H. tauto.
Qed.

Lemma keys_fold_first_seen (ws : list str) :
  forall d,
    map fst (fold_left (fun d w => Collections.incr w d) ws d)
    = map fst d ++ first_seen_from (map fst d) ws.
Proof.
  induction ws as [|w ws IH]; intro d; simpl.
  - now rewrite app_nil_r.
  - rewrite IH, keys_incr.
    destruct (in_dec str_dec w (map fst d)) as [Hi|Hi]; [reflexivity|].
    rewrite <- app_assoc. simpl. do 2 f_equal.
    apply first_seen_from_ext. intro x. rewrite in_app_iff. simpl. tauto.
Qed.

(** The keys of a counter are the distinct words in the order of their first
    occurrence. *)
Lemma Counter_first_seen (ws : list str) :
  map fst (Collections.Counter ws) = first_seen ws.
Proof. unfold Collections.Counter. now rewrite keys_fold_first_seen. Qed.

Lemma insert_desc_filter (k : nat) (x : str * nat) (l : Collections.counter) :
  filter (with_count k) (Collections.insert_desc x l)
  = filter (with_count k) (x :: l).
Proof.
  induction l as [|y l IH]; simpl; auto.
  destruct (snd x <? snd y) eqn:E; [|reflexivity].
  apply Nat.ltb_lt in E. simpl. rewrite IH. simpl.
  unfold with_count.
  destruct (Nat.eqb (snd x) k) eqn:Ex; destruct (Nat.eqb (snd y) k) eqn:Ey;
    try reflexivity.
  apply Nat.eqb_eq in Ex, Ey. lia.
Qed.

(** The descending sort keeps the entries of one count in their order. *)
Lemma sorted_desc_stable (k : nat) (d : Collections.counter) :
  filter (with_count k) (Collections.sorted_desc d) = filter (with_count k) d.
Proof.
  induction d as [|x d IH]; simpl; auto.
  rewrite insert_desc_filter. simpl. now rewrite IH.
Qed.

Lemma filter_keys (ws : list str) (k : nat) (d : Collections.counter) :
  Forall (fun e => snd e = count_of ws (fst e)) d ->
  map fst (filter (with_count k) d)
  = filter (fun w => Nat.eqb (count_of ws w) k) (map fst d).
Proof.
  induction 1 as [|[w c] d Hc _ IH]; simpl; auto.
  simpl in Hc. subst c. unfold with_count at 1. simpl.
  destruct (Nat.eqb (count_of ws w) k); simpl; now rewrite IH.
Qed.

(** X13: ties are broken by text order: in a ranking long enough for every
    distinct token, the words of any one count stand in the order of their
    first occurrence in the text. *)
Theorem ranking_ties (content : str) (n : Z) (k : nat) :
  (Z.of_nat (List.length (first_seen (tokenize content))) <= n)%Z ->
  map fst (filter (with_count k) (get_word_frequency content n))
  = filter (fun w => Nat.eqb (count_of (tokenize content) w) k)
           (first_seen (tokenize content)).
Proof.
  intro Hle. rewrite <- Counter_first_seen in *.
  unfold get_word_frequency. fold (tokenize content).
  set (d := Collections.Counter (tokenize content)) in *.
  assert (Hd : Forall (fun e => snd e = count_of (tokenize content) (fst e)) d).
  { apply Forall_forall. intros [w c] Hin. apply Counter_entry in Hin.
    simpl. tauto. }
  unfold Collections.most_common. destruct (n <=? 0)%Z eqn:E.
  - apply Z.leb_le in E. destruct (map fst d) eqn:Ek; [reflexivity|].
    simpl in Hle. lia.
  - rewrite firstn_all2.
    + rewrite sorted_desc_stable. now apply filter_keys.
    + rewrite (Permutation_length (sorted_desc_perm d)).
      rewrite length_map in Hle. lia.
Qed.

Lemma ranking_ties_witness :
  map fst (filter (with_count 2)
                  (get_word_frequency (text "b a c b a c c") 3))
  = [text "b"; text "a"].
Proof.
  rewrite (@ranking_ties (text "b a c b a c c") 3 2); [reflexivity|].
  vm_compute. congruence.
Defined.

(** ** How the operations agree *)

(** X14: an entry of the ranking carries the count that [find_word] reports
    for its word. *)
Theorem ranking_agrees_with_find (content : str) (n : Z) (w : str) (c : nat) :
  In (w, c) (get_word_frequency content n) ->
  lookup (find_word content w) w = Some c.
Proof.
  intro H. apply get_word_frequency_entry in H. destruct H as [Hw ->].
  rewrite lookup_find_word. now rewrite (tokenize_lowercase _ _ Hw).
Qed.

Lemma ranking_agrees_with_find_witness :
  lookup (find_word (text "The cat, the hat") (text "the")) (text "the")
  = Some 2.
Proof.
  apply (@ranking_agrees_with_find (text "The cat, the hat") 2 (text "the") 2).
  vm_compute. left. reflexivity.
Defined.

(** X15: when only a replace is requested, with an old word that is a word
    and a new word without a backslash, the run ends with the "not found"
    line and no file exactly when no maximal run of word characters of the
    text spells the old word, case ignored. *)
Theorem not_found_iff_no_run (fs : filesystem) (file_path content : str)
    (old_word new_word : str) :
  is_a_word old_word -> no_backslash new_word ->
  only_word_matches old_word content = true ->
  fs_read fs file_path = ReadOk content ->
  process_file fs file_path
    (Namespace file_path false false false None
               (Some (old_word, new_word)) None)
  = Returned [quoted old_word ++ text " was not found in the file."] []
  <-> forall w, In w (Re.findall_words content) -> spells old_word w = false.
Proof.
  intros Hw Hnb _ Hread.
  rewrite (@process_file_spec fs file_path _ content Hread).
  unfold replace_lines. cbn [replace].
  destruct (replace_word content old_word new_word) as [e|[updated k]] eqn:E.
  - rewrite (replace_word_plain content old_word Hnb) in E. discriminate.
  - pose proof (@replace_word_count content old_word new_word updated k Hw E)
      as Hc.
    rewrite <- no_run_spells, <- Hc. destruct k as [|k].
    + split; reflexivity.
    + split; [|discriminate].
      destruct (fs_write fs (text "updated_" ++ file_path) updated);
        discriminate.
Qed.

Lemma not_found_iff_no_run_witness :
  process_file
    (Filesystem (fun _ => ReadOk (text "concatenate cats")) (fun _ _ => None))
    (text "in.txt")
    (Namespace (text "in.txt") false false false None
               (Some (text "cat", text "dog")) None)
  = Returned [text "'cat' was not found in the file."] [].
Proof.
  apply (proj2 (@not_found_iff_no_run
                  (Filesystem (fun _ => ReadOk (text "concatenate cats"))
                              (fun _ _ => None))
                  (text "in.txt") (text "concatenate cats") (text "cat")
                  (text "dog")
                  ltac:(split; [discriminate|repeat constructor])
                  ltac:(repeat constructor) eq_refl eq_refl)).
  intros w Hw. vm_compute in Hw. destruct Hw as [<-|[<-|[]]]; reflexivity.
Defined.

(** ** Lines put together *)

Lemma splitlines_from_after_lf (k : nat) :
  forall a cur b,
    List.length a <= k ->
    Str.splitlines_from cur (a ++ LF :: b)
    = Str.splitlines_from cur (a ++ [LF]) ++ Str.splitlines b.
Proof.
  unfold Str.splitlines.
  induction k as [|k IH]; intros a cur b Hlen.
  - destruct a; [|simpl in Hlen; lia].
    cbn [app Str.splitlines_from].
    change (Str.is_linebreak LF) with true. cbn iota.
    destruct b as [|d b]; reflexivity.
  - destruct a as [|c a]; [apply (IH [] cur b); simpl; lia|].
    simpl in Hlen. cbn [app Str.splitlines_from].
    destruct (Str.is_linebreak c).
    + cbn [app]. f_equal. destruct a as [|d a].
      * cbn [app]. destruct (Str.is_cr c && Str.is_lf LF).
        -- reflexivity.
        -- apply (IH [] [] b). simpl. lia.
      * cbn [app]. destruct (Str.is_cr c && Str.is_lf d).
        -- apply IH. simpl in Hlen. lia.
        -- apply (IH (d :: a) [] b). lia.
    + apply IH. lia.
Qed.

(** X17: the lines of a text cut after a line feed add up: the text up to
    and with the line feed, and the text after it, are counted apart. *)
Theorem count_lines_after_lf (a b : str) :
  count_lines (a ++ LF :: b) = count_lines (a ++ [LF]) + count_lines b.
Proof.
  unfold count_lines, Str.splitlines.
  rewrite (@splitlines_from_after_lf (List.length a) a [] b (le_n _)).
  now rewrite length_app.
Qed.
